(** * will.storage.file_storage: a key-value store with one file per key

    A shallow embedding of [src/will/storage/file_storage.py] (Python 2) and
    proofs about it.

    The Python code talks to the operating system through [os], [os.path],
    [open] and [time.time].  These are modelled below as primitives acting on
    a [world]: a finite map from path spellings to nodes, together with a
    clock.  Every primitive first consults a fault oracle, so that failures
    that do not follow from the modelled state (permission denied, disk full,
    I/O error) can be injected; [no_fault] is the environment without such
    failures.  Every primitive call is recorded in the list of events of a
    run, with the error it ended in, if any.

    A path identifies a file by its spelling.  That is exact for the paths the
    store builds from an absolute, normalised directory ([absolute_dir]) and a
    key that is a single path component ([valid_key]); the theorems state
    these two conditions.  Modification times, permission bits of regular
    files and the umask are not tracked. *)

From Stdlib Require Import Ascii QArith.
From stdpp Require Import gmap strings list fin_maps.

Local Open Scope string_scope.
Local Open Scope Z_scope.

Set Warnings "-clear-no-such-hyp".

(** ** Path names: [posixpath] *)

Definition slash : ascii := "/"%char.

Definition is_slash (c : ascii) : bool := Ascii.eqb c slash.

Fixpoint has_slash (s : string) : bool :=
  match s with
  | EmptyString => false
  | String c r => is_slash c || has_slash r
  end.

Fixpoint has_nul (s : string) : bool :=
  match s with
  | EmptyString => false
  | String c r => Ascii.eqb c Ascii.zero || has_nul r
  end.

Definition starts_with_slash (s : string) : bool :=
  match s with
  | String c _ => is_slash c
  | EmptyString => false
  end.

Fixpoint ends_with_slash (s : string) : bool :=
  match s with
  | EmptyString => false
  | String c EmptyString => is_slash c
  | String _ r => ends_with_slash r
  end.

Fixpoint all_slashes (s : string) : bool :=
  match s with
  | EmptyString => true
  | String c r => is_slash c && all_slashes r
  end.

Definition is_empty (s : string) : bool :=
  match s with EmptyString => true | _ => false end.

(** [posixpath.join(a, b)] for two arguments. *)
Definition join (a b : string) : string :=
  if starts_with_slash b then b
  else if is_empty a || ends_with_slash a then a +:+ b
  else a +:+ "/" +:+ b.

(** [p[:i], p[i:]] with [i = p.rfind('/') + 1]. *)
Fixpoint rsplit_slash (p : string) : string * string :=
  match p with
  | EmptyString => (EmptyString, EmptyString)
  | String c r =>
      let '(h, t) := rsplit_slash r in
      if is_slash c || negb (is_empty h) then (String c h, t)
      else (EmptyString, String c t)
  end.

(** [s.rstrip('/')] *)
Fixpoint rstrip_slash (s : string) : string :=
  match s with
  | EmptyString => EmptyString
  | String c r =>
      let r' := rstrip_slash r in
      if is_slash c && is_empty r' then EmptyString else String c r'
  end.

(** [posixpath.split(p)]: directory part and last component. *)
Definition posix_split (p : string) : string * string :=
  let '(head, tail) := rsplit_slash p in
  (if negb (is_empty head) && negb (all_slashes head)
   then rstrip_slash head else head, tail).

Definition posix_dirname (p : string) : string := fst (posix_split p).
Definition posix_basename (p : string) : string := snd (posix_split p).

(** The directories above [p], outermost first: every non-empty proper prefix
    of [p] that is followed by a slash, and the root for an absolute [p]. *)
Fixpoint prefixes_at_slash (acc p : string) : list string :=
  match p with
  | EmptyString => []
  | String c r =>
      (if is_slash c then [if is_empty acc then "/" else acc] else [])
      ++ prefixes_at_slash (acc +:+ String c EmptyString) r
  end.

Definition ancestors (p : string) : list string := prefixes_at_slash "" p.

(** What [os.path.abspath] returns: the root, or a path that starts with a
    slash and does not end with one. *)
Definition absolute_dir (d : string) : Prop :=
  starts_with_slash d = true ∧ (d = "/" ∨ ends_with_slash d = false).

(** A key that names one entry of the store directory: a single path
    component other than [.] and [..]. *)
Definition valid_key (k : string) : Prop :=
  is_empty k = false ∧ has_slash k = false ∧ has_nul k = false
  ∧ k ≠ "." ∧ k ≠ "..".

(** ** [int(s)] on a string

    Surrounding whitespace is ignored; an optional sign is followed directly
    by one or more decimal digits. *)

Definition is_space (c : ascii) : bool :=
  let n := nat_of_ascii c in
  bool_decide (n = 32%nat) || (bool_decide (9 ≤ n)%nat && bool_decide (n ≤ 13)%nat).

Definition digit_of (c : ascii) : option Z :=
  let n := Z.of_nat (nat_of_ascii c) in
  if bool_decide (48 ≤ n) && bool_decide (n ≤ 57) then Some (n - 48) else None.

Fixpoint lstrip (s : string) : string :=
  match s with
  | String c r => if is_space c then lstrip r else s
  | EmptyString => EmptyString
  end.

Fixpoint rstrip (s : string) : string :=
  match s with
  | EmptyString => EmptyString
  | String c r =>
      let r' := rstrip r in
      if is_space c && is_empty r' then EmptyString else String c r'
  end.

Fixpoint digits (acc : Z) (s : string) : option Z :=
  match s with
  | EmptyString => Some acc
  | String c r =>
      match digit_of c with
      | Some v => digits (10 * acc + v) r
      | None => None
      end
  end.

Definition unsigned_int (s : string) : option Z :=
  if is_empty s then None else digits 0 s.

Definition py_int (s : string) : option Z :=
  match rstrip (lstrip s) with
  | String "-" r => Z.opp <$> unsigned_int r
  | String "+" r => unsigned_int r
  | body => unsigned_int body
  end.


(** ** The world: a file system and a clock *)

Inductive node :=
  | File (content : string)
  | Dir (mode : Z).

Inductive errno :=
  ENOENT | EEXIST | ENOTDIR | EISDIR | EACCES | ENOSPC | EIO | EBADF.

(** The exceptions this module can end in: its own [FileStorageException],
    the interpreter's [IOError] (from [open] and file objects), [OSError]
    (from [os]) and [ValueError] (from [int]). *)
Inductive exn :=
  | FileStorageException (msg : string)
  | IOError (e : errno)
  | OSError (e : errno)
  | ValueError (literal : string).

Inductive open_mode := Mode_r | Mode_w | Mode_a.

Inductive syscall :=
  | SysStat (p : string)
  | SysOpen (p : string) (m : open_mode)
  | SysWrite (p : string)
  | SysRead (p : string)
  | SysUnlink (p : string)
  | SysListdir (p : string)
  | SysMakedirs (p : string)
  | SysChmod (p : string)
  | SysUtime (p : string)
  | SysGetsize (p : string).

Record world := World {
  w_fs : gmap string node;
  w_clock : Q
}.

Definition set_clock (t : Q) (w : world) : world :=
  {| w_fs := w_fs w; w_clock := t |}.

Inductive outcome (A : Type) :=
  | Return (a : A)
  | Raise (e : exn).
Arguments Return {A} a.
Arguments Raise {A} e.

Definition event : Type := syscall * option errno.

(** The result of running a computation: how it ended, the world it left,
    and the primitive calls it made, in order. *)
Record run (A : Type) := Run {
  outcome_of : outcome A;
  final : world;
  events : list event
}.
Arguments Run {A} _ _ _.
Arguments outcome_of {A} _.
Arguments final {A} _.
Arguments events {A} _.

Definition M (A : Type) : Type := world → run A.

Definition ret {A} (a : A) : M A := λ w, Run (Return a) w [].

Definition raise {A} (e : exn) : M A := λ w, Run (Raise e) w [].

Definition bind {A B} (m : M A) (k : A → M B) : M B :=
  λ w,
    let r := m w in
    match outcome_of r with
    | Return a =>
        let r' := k a (final r) in
        Run (outcome_of r') (final r') (events r ++ events r')
    | Raise e => Run (Raise e) (final r) (events r)
    end.

(** How a computation ends from [w], and the world it leaves. *)
Definition exec {A} (m : M A) (w : world) : outcome A * world :=
  (outcome_of (m w), final (m w)).

Notation "'let!' x ':=' m 'in' k" := (bind m (λ x, k))
  (at level 10, x binder, m at level 100, k at level 200).
Notation "m '>>' k" := (bind m (λ _, k))
  (at level 100, k at level 200, right associativity).

(** [time.time() > t] for a clock reading and an integer: Python compares a
    float with an integer exactly. *)
Definition is_expired (now : Q) (t : Z) : bool := negb (Qle_bool now (inject_Z t)).

Definition is_file (o : option node) : bool :=
  match o with Some (File _) => true | _ => false end.

Definition is_dir (o : option node) : bool :=
  match o with Some (Dir _) => true | _ => false end.

Definition is_present (o : option node) : bool :=
  match o with Some _ => true | None => false end.

(** Can an entry be created at [p]?  Its directory must exist. *)
Definition creatable (fs : gmap string node) (p : string) : option errno :=
  match fs !! posix_dirname p with
  | Some (Dir _) => None
  | Some (File _) => Some ENOTDIR
  | None => Some ENOENT
  end.

(** [os.mkdir(a, mode)] unless [a] is there. *)
Definition mkdir_missing (mode : Z) (a : string)
    (m : gmap string node) : gmap string node :=
  if is_present (m !! a) then m else <[a := Dir mode]> m.

(** The name under which [p] is an entry of directory [d], if it is one. *)
Definition child_name (d p : string) : option string :=
  let '(h, t) := posix_split p in
  if bool_decide (h = d) && negb (is_empty t) && bool_decide (join d t = p)
  then Some t else None.

Definition entries (fs : gmap string node) (d : string) : list string :=
  omap (child_name d) (map_to_list fs).*1.

Record FileStorage := {
  dirname : string;
  dotfile : string
}.

(** [[x for x in l if test(x)]] with a test that has effects. *)
Fixpoint filter_M {A} (test : A → M bool) (l : list A) : M (list A) :=
  match l with
  | [] => ret []
  | x :: l' =>
      let! keep := test x in
      let! rest := filter_M test l' in
      ret (if keep then x :: rest else rest)
  end.

(** [for x in l: body(x)] *)
Fixpoint for_each {A} (body : A → M unit) (l : list A) : M unit :=
  match l with
  | [] => ret tt
  | x :: l' => body x >> for_each body l'
  end.

(** [[f(x) for x in l]] with a function that has effects. *)
Fixpoint map_M {A B} (f : A → M B) (l : list A) : M (list B) :=
  match l with
  | [] => ret []
  | x :: l' =>
      let! y := f x in
      let! rest := map_M f l' in
      ret (y :: rest)
  end.

Definition not_empty_message (d : string) : string :=
  d +:+ " is not empty, will needs an empty directory for settings".

(** The attributes [__init__] gives the object for directory [dir]. *)
Definition attributes (dir : string) : FileStorage :=
  {| dirname := dir; dotfile := join dir ".will_settings" |}.

(** Why [open(p, 'w')] fails, if it does. *)
Definition open_error (fs : gmap string node) (p : string) : option errno :=
  match fs !! p with
  | Some (File _) => None
  | Some (Dir _) => Some EISDIR
  | None => creatable fs p
  end.

(** Is [p] a regular file directly in [d]? *)
Definition is_setting_file (fs : gmap string node) (d p : string) : bool :=
  match child_name d p with
  | Some _ => is_file (fs !! p)
  | None => false
  end.

(** The regular files directly in [d], as [_all_setting_files] lists them. *)
Definition setting_files (fs : gmap string node) (d : string) : list string :=
  map (λ f, join d f) (List.filter (λ f, is_file (fs !! join d f)) (entries fs d)).

Definition no_fault : syscall → option errno := λ _, None.

Section primitives.
(** The failures of the environment that the modelled state does not
    explain. *)
Context (fault : syscall → option errno).

(** A call that raises when it fails. *)
Definition call {A} (sc : syscall) (as_exn : errno → exn)
    (sem : gmap string node → errno + A * gmap string node) : M A :=
  λ w,
    match fault sc with
    | Some e => Run (Raise (as_exn e)) w [(sc, Some e)]
    | None =>
        match sem (w_fs w) with
        | inl e => Run (Raise (as_exn e)) w [(sc, Some e)]
        | inr (a, fs') => Run (Return a) (World fs' (w_clock w)) [(sc, None)]
        end
    end.

(** [os.path.exists] and [os.path.isfile] call [os.stat] and answer
    [False] when it fails, whatever the reason. *)
Definition probe (p : string) (test : option node → bool) : M bool :=
  λ w,
    match fault (SysStat p) with
    | Some e => Run (Return false) w [(SysStat p, Some e)]
    | None => Run (Return (test (w_fs w !! p))) w [(SysStat p, None)]
    end.

Definition path_exists (p : string) : M bool := probe p is_present.
Definition path_isfile (p : string) : M bool := probe p is_file.

Definition time_time : M Q := λ w, Run (Return (w_clock w)) w [].

(** [open(p, 'r')] *)
Definition open_r (p : string) : M unit :=
  call (SysOpen p Mode_r) IOError (λ fs,
    match fs !! p with
    | Some (File _) => inr (tt, fs)
    | Some (Dir _) => inl EISDIR
    | None => inl ENOENT
    end).

(** [open(p, 'w')]: creates the file, or truncates it. *)
Definition open_w (p : string) : M unit :=
  call (SysOpen p Mode_w) IOError (λ fs,
    match fs !! p with
    | Some (File _) => inr (tt, <[p := File ""]> fs)
    | Some (Dir _) => inl EISDIR
    | None =>
        match creatable fs p with
        | Some e => inl e
        | None => inr (tt, <[p := File ""]> fs)
        end
    end).

(** [open(p, 'a')]: creates the file, or leaves it as it is. *)
Definition open_a (p : string) : M unit :=
  call (SysOpen p Mode_a) IOError (λ fs,
    match fs !! p with
    | Some (File _) => inr (tt, fs)
    | Some (Dir _) => inl EISDIR
    | None =>
        match creatable fs p with
        | Some e => inl e
        | None => inr (tt, <[p := File ""]> fs)
        end
    end).

(** [f.write(v)] and the close that follows, on the file just opened at
    [p] for writing. *)
Definition f_write (p v : string) : M unit :=
  call (SysWrite p) IOError (λ fs,
    match fs !! p with
    | Some (File _) => inr (tt, <[p := File v]> fs)
    | _ => inl EBADF
    end).

(** [f.read()] on the file just opened at [p] for reading. *)
Definition f_read (p : string) : M string :=
  call (SysRead p) IOError (λ fs,
    match fs !! p with
    | Some (File s) => inr (s, fs)
    | _ => inl EBADF
    end).

Definition unlink (p : string) : M unit :=
  call (SysUnlink p) OSError (λ fs,
    match fs !! p with
    | Some (File _) => inr (tt, delete p fs)
    | Some (Dir _) => inl EISDIR
    | None => inl ENOENT
    end).

Definition listdir (d : string) : M (list string) :=
  call (SysListdir d) OSError (λ fs,
    match fs !! d with
    | Some (Dir _) => inr (entries fs d, fs)
    | Some (File _) => inl ENOTDIR
    | None => inl ENOENT
    end).

(** [os.makedirs(d, mode)]: creates [d] and the directories above it that
    are missing. *)
Definition makedirs (d : string) (mode : Z) : M unit :=
  call (SysMakedirs d) OSError (λ fs,
    if is_present (fs !! d) then inl EEXIST
    else if existsb (λ a, is_file (fs !! a)) (ancestors d) then inl ENOTDIR
    else inr (tt, <[d := Dir mode]>
                    (foldr (λ a m, if is_present (m !! a) then m
                                   else <[a := Dir mode]> m) fs (ancestors d)))).

Definition chmod (p : string) (mode : Z) : M unit :=
  call (SysChmod p) OSError (λ fs,
    match fs !! p with
    | Some (Dir _) => inr (tt, <[p := Dir mode]> fs)
    | Some (File _) => inr (tt, fs)
    | None => inl ENOENT
    end).

(** [os.utime(p, None)]: sets the times of [p] to now. *)
Definition utime (p : string) : M unit :=
  call (SysUtime p) OSError (λ fs,
    match fs !! p with
    | Some _ => inr (tt, fs)
    | None => inl ENOENT
    end).

Definition getsize (p : string) : M Z :=
  call (SysGetsize p) OSError (λ fs,
    match fs !! p with
    | Some (File s) => inr (Z.of_nat (String.length s), fs)
    | Some (Dir _) => inr (4096, fs)
    | None => inl ENOENT
    end).

(** ** The store *)

Definition _all_setting_files (self : FileStorage) : M (list string) :=
  let! names := listdir (dirname self) in
  let! kept := filter_M (λ f, path_isfile (join (dirname self) f)) names in
  ret (map (λ f, join (dirname self) f) kept).

(** [FileStorage(settings)], where [dir] is the value of
    [os.path.abspath(os.path.expanduser(settings.FILE_DIR))]. *)
Definition __init__ (dir : string) : M FileStorage :=
  let self := attributes dir in
  (let! dir_exists := path_exists (dirname self) in
   if negb dir_exists then
     makedirs (dirname self) 448
   else
     let! marked := path_exists (dotfile self) in
     if negb marked then
       let! files := _all_setting_files self in
       if bool_decide (0 < length files)%nat then
         raise (FileStorageException (not_empty_message (dirname self)))
       else ret tt
     else ret tt) >>
  chmod (dirname self) 448 >>
  open_a (dotfile self) >>
  utime (dotfile self) >>
  ret self.

Definition _key_paths (self : FileStorage) (key : string) : string * string :=
  let key_path := join (dirname self) key in
  let expire_path := join (dirname self) ("." +:+ key +:+ ".expires") in
  (key_path, expire_path).

Definition save (self : FileStorage) (key value : string)
    (expire : option string) : M unit :=
  let '(key_path, expire_path) := _key_paths self key in
  open_w key_path >>
  f_write key_path value >>
  match expire with
  | Some expire =>
      open_w expire_path >>
      f_write expire_path expire
  | None =>
      let! has_expiry := path_exists expire_path in
      if has_expiry then unlink expire_path else ret tt
  end.

Definition clear (self : FileStorage) (key : string) : M unit :=
  let '(key_path, expire_path) := _key_paths self key in
  (let! has_value := path_exists key_path in
   if has_value then unlink key_path else ret tt) >>
  let! has_expiry := path_exists expire_path in
  if has_expiry then unlink expire_path else ret tt.

Definition clear_all_keys (self : FileStorage) : M unit :=
  let! files := _all_setting_files self in
  for_each unlink files.

Definition load (self : FileStorage) (key : string) : M (option string) :=
  let '(key_path, expire_path) := _key_paths self key in
  let! has_expiry := path_exists expire_path in
  let! expired :=
    (if has_expiry then
       open_r expire_path >>
       let! expire_at := f_read expire_path in
       let! now := time_time in
       match py_int expire_at with
       | Some t => ret (is_expired now t)
       | None => raise (ValueError expire_at)
       end
     else ret false) in
  if expired then
    (* the current value has expired *)
    clear self key >>
    ret None
  else
    let! has_value := path_exists key_path in
    if has_value then
      open_r key_path >>
      let! value := f_read key_path in
      ret (Some value)
    else ret None.

Section size.
(** [will.utils.sizeof_fmt], which is not part of this module. *)
Context (sizeof_fmt : Z → string).

Definition size (self : FileStorage) : M string :=
  let! files := _all_setting_files self in
  let! sizes := map_M getsize files in
  ret (sizeof_fmt (foldr Z.add 0 sizes)).
End size.

Definition bootstrap (dir : string) : M FileStorage := __init__ dir.
End primitives.


(** ** The entries the files stand for

    The specification describes the store as a set of entries: a key, a value
    and an optional expiration.  This is that reading, next to the files:
    [save] records the entry, [clear] and an expired [load] forget it. *)

Definition entry : Type := string * option string.

Definition entry_save (k v : string) (e : option string)
    (m : gmap string entry) : gmap string entry := <[k := (v, e)]> m.

Definition entry_clear (k : string) (m : gmap string entry) : gmap string entry :=
  delete k m.

Definition entry_clear_all (m : gmap string entry) : gmap string entry := ∅.

Definition entry_load (now : Q) (k : string)
    (m : gmap string entry) : gmap string entry :=
  match m !! k with
  | Some (_, Some e) =>
      match py_int e with
      | Some t => if is_expired now t then delete k m else m
      | None => m
      end
  | _ => m
  end.

(** The two paths of a key, by name. *)
Definition key_path (self : FileStorage) (key : string) : string :=
  (_key_paths self key).1.

Definition expire_path (self : FileStorage) (key : string) : string :=
  (_key_paths self key).2.

(** The content of the regular file at [p], if there is one. *)
Definition value_at (fs : gmap string node) (p : string) : option string :=
  match fs !! p with
  | Some (File v) => Some v
  | _ => None
  end.

(** The world without the two files of a key. *)
Definition cleared (self : FileStorage) (k : string) (w : world) : world :=
  World (delete (expire_path self k) (delete (key_path self k) (w_fs w))) (w_clock w).

(** Does directory [d] directly contain a regular file? *)
Definition has_regular_file (fs : gmap string node) (d : string) : Prop :=
  ∃ n s, has_slash n = false ∧ is_empty n = false
         ∧ fs !! join d n = Some (File s).

(** A directory that is there, has no marker, and holds a regular file. *)
Definition foreign (fs : gmap string node) (d : string) : Prop :=
  is_present (fs !! d) = true
  ∧ fs !! dotfile (attributes d) = None
  ∧ has_regular_file fs d.

Definition has_expiration (m : gmap string entry) (k : string) : Prop :=
  ∃ v e, m !! k = Some (v, Some e).

(** The expiry file of a key exists exactly when the key has an expiration. *)
Definition expiry_file_iff (self : FileStorage) (m : gmap string entry)
    (w : world) : Prop :=
  ∀ k, valid_key k →
    is_file (w_fs w !! expire_path self k) = true ↔ has_expiration m k.

(** The same, and the file holds the text of that expiration. *)
Definition expiry_inv (self : FileStorage) (m : gmap string entry)
    (w : world) : Prop :=
  ∀ k, valid_key k → ∀ e,
    w_fs w !! expire_path self k = Some (File e)
    ↔ ∃ v, m !! k = Some (v, Some e).

(** Is [k] the name of some key's expiry file? *)
Fixpoint ends_with (suffix s : string) : bool :=
  bool_decide (s = suffix)
  || match s with
     | String _ r => ends_with suffix r
     | EmptyString => false
     end.

Definition is_expiry_name (k : string) : bool :=
  match k with
  | String "." r => ends_with ".expires" r
  | _ => false
  end.

(** Calls whose failure raises; the probes behind [os.path.exists] and
    [os.path.isfile] do not. *)
Definition raises (sc : syscall) : bool :=
  match sc with
  | SysStat _ => false
  | _ => true
  end.

(** The exception a failed call surfaces as. *)
Definition exn_of (sc : syscall) (e : errno) : exn :=
  match sc with
  | SysOpen _ _ | SysWrite _ | SysRead _ => IOError e
  | _ => OSError e
  end.

(** A run reports its failures: a failed call of a raising kind ends the run
    in the exception of that call, and the run ends in an exception only so,
    or in one the code raises itself ([own]). *)
Definition propagates {A} (own : exn → Prop) (r : run A) : Prop :=
  (∀ sc e, (sc, Some e) ∈ events r → raises sc = true →
     outcome_of r = Raise (exn_of sc e))
  ∧ (∀ x, outcome_of r = Raise x →
       own x ∨ ∃ sc e, (sc, Some e) ∈ events r ∧ raises sc = true
                       ∧ x = exn_of sc e).

(** Every failed call of a run, of whatever kind, ends it in an exception. *)
Definition every_failure_reported {A} (r : run A) : Prop :=
  ∀ sc e, (sc, Some e) ∈ events r → ∃ x, outcome_of r = Raise x.

(** An environment in which every [os.stat] is refused. *)
Definition stat_denied : syscall → option errno :=
  λ sc, match sc with SysStat _ => Some EACCES | _ => None end.

(** An environment in which the disk is full: every write fails. *)
Definition disk_full : syscall → option errno :=
  λ sc, match sc with SysWrite _ => Some ENOSPC | _ => None end.

(** The exceptions of the interpreter for a failed call. *)
Definition is_io_error (x : exn) : Prop := ∃ e, x = IOError e ∨ x = OSError e.

(** The files after an [__init__] that succeeded: the directory (created
    with the directories above it if it was missing) has mode 0700, and the
    marker is there, empty if it was missing. *)
Definition claimed (d : string) (fs : gmap string node) : gmap string node :=
  let base :=
    <[d := Dir 448]>
      (if is_present (fs !! d) then fs
       else foldr (mkdir_missing 448) fs (ancestors d)) in
  match fs !! dotfile (attributes d) with
  | Some _ => base
  | None => <[dotfile (attributes d) := File ""]> base
  end.

(** The files after a [save] that succeeded. *)
Definition saved (self : FileStorage) (k v : string) (e : option string)
    (fs : gmap string node) : gmap string node :=
  match e with
  | Some x => <[expire_path self k := File x]> (<[key_path self k := File v]> fs)
  | None => delete (expire_path self k) (<[key_path self k := File v]> fs)
  end.

(** [p] names an entry of directory [d]: [d] joined with one component. *)
Definition directly_in (d p : string) : Prop :=
  ∃ n, has_slash n = false ∧ is_empty n = false ∧ p = join d n.

(** A computation changes no path outside [P], and never the clock. *)
Definition touches_only {A} (P : string → Prop) (m : M A) : Prop :=
  ∀ w, w_clock (final (m w)) = w_clock w
       ∧ ∀ p, ¬ P p → w_fs (final (m w)) !! p = w_fs w !! p.

(** The two paths of a key. *)
Definition own_path (self : FileStorage) (k p : string) : Prop :=
  p = key_path self k ∨ p = expire_path self k.

(** The size [os.path.getsize] reports for a node. *)
Definition node_size (o : option node) : Z :=
  match o with
  | Some (File s) => Z.of_nat (String.length s)
  | Some (Dir _) => 4096
  | None => 0
  end.

(** The bytes [size] adds up: those of the regular files directly in [d]. *)
Definition total_size (fs : gmap string node) (d : string) : Z :=
  foldr Z.add 0 (map (λ p, node_size (fs !! p)) (setting_files fs d)).

(** Whenever [m] returns, [m0] returns the same value and leaves the same
    world. *)
Definition returns_as {A} (m m0 : M A) : Prop :=
  ∀ w a w', exec m w = (Return a, w') → exec m0 w = (Return a, w').

(** ** Path names *)

Lemma is_empty_true s : is_empty s = true → s = "".
Proof. by destruct s. Qed.

Lemma app_nil (s : string) : "" +:+ s = s.
Proof. reflexivity. Qed.

Lemma app_cons c (s t : string) : String c s +:+ t = String c (s +:+ t).
Proof. reflexivity. Qed.

Lemma length_app (s t : string) :
  String.length (s +:+ t) = (String.length s + String.length t)%nat.
Proof. induction s as [|c s IH]; [done | by rewrite app_cons; simpl; rewrite IH]. Qed.

Lemma app_inj_r (s s' t : string) : s +:+ t = s' +:+ t → s = s'.
Proof.
  revert s'. induction s as [|c s IH]; intros [|c' s'] H.
  - done.
  - apply (f_equal String.length) in H. rewrite !length_app in H. simpl in H. lia.
  - apply (f_equal String.length) in H. rewrite !length_app in H. simpl in H. lia.
  - rewrite !app_cons in H. injection H as -> H. f_equal. by apply IH.
Qed.

Lemma app_assoc_s (s t u : string) : (s +:+ t) +:+ u = s +:+ (t +:+ u).
Proof. induction s as [|c s IH]; [done | by rewrite !app_cons, IH]. Qed.

Lemma has_slash_start s : has_slash s = false → starts_with_slash s = false.
Proof. destruct s as [|c s]; simpl; [done|]. by intros [? _]%orb_false_elim. Qed.

Lemma rsplit_no_slash n : has_slash n = false → rsplit_slash n = ("", n).
Proof.
  induction n as [|c n IH]; simpl; [done|].
  intros [Hc Hn]%orb_false_elim. rewrite (IH Hn), Hc. done.
Qed.

Lemma rsplit_app_slash d n :
  has_slash n = false → rsplit_slash (d +:+ String slash n) = (d +:+ "/", n).
Proof.
  intros Hn. induction d as [|c d IH].
  - rewrite !app_nil. cbn [rsplit_slash]. by rewrite (rsplit_no_slash n Hn).
  - rewrite !app_cons. cbn [rsplit_slash]. rewrite IH.
    replace (is_empty (d +:+ "/")) with false by (by destruct d).
    by rewrite orb_true_r.
Qed.

Lemma all_slashes_app d x :
  is_empty d = false → ends_with_slash d = false → all_slashes (d +:+ x) = false.
Proof.
  induction d as [|c d IH]; [done|]. intros _ He. rewrite app_cons.
  cbn [all_slashes]. destruct d as [|c' d].
  - simpl in He. by rewrite He.
  - rewrite IH; [apply andb_false_r | done | done].
Qed.

Lemma rstrip_slash_app d :
  ends_with_slash d = false → rstrip_slash (d +:+ "/") = d.
Proof.
  induction d as [|c d IH]; [done|]. intros He. rewrite app_cons.
  cbn [rstrip_slash]. destruct d as [|c' d].
  - simpl in *. by rewrite He.
  - rewrite IH by done. simpl. by rewrite andb_false_r.
Qed.

Lemma join_name d n :
  absolute_dir d → has_slash n = false →
  join d n = (if ends_with_slash d then d else d +:+ "/") +:+ n.
Proof.
  intros [Hs Hd] Hn. unfold join. rewrite (has_slash_start n Hn).
  destruct d as [|c d]; [discriminate Hs|]. cbn [is_empty orb].
  destruct (ends_with_slash (String c d)); [done|].
  by rewrite app_assoc_s.
Qed.

Lemma split_join d n :
  absolute_dir d → has_slash n = false → posix_split (join d n) = (d, n).
Proof.
  intros Hd Hn. rewrite (join_name d n Hd Hn). destruct Hd as [Hs [->|He]].
  - change (ends_with_slash "/") with true. cbn iota. rewrite app_cons, app_nil.
    unfold posix_split. cbn [rsplit_slash]. rewrite (rsplit_no_slash n Hn). done.
  - rewrite He. unfold posix_split. rewrite app_assoc_s.
    change ("/" +:+ n) with (String slash n).
    rewrite (rsplit_app_slash d n Hn).
    assert (is_empty d = false) as Hne by (by destruct d).
    rewrite (all_slashes_app d "/" Hne He).
    replace (is_empty (d +:+ "/")) with false by (by destruct d).
    simpl. by rewrite rstrip_slash_app.
Qed.

Lemma dirname_join d n :
  absolute_dir d → has_slash n = false → posix_dirname (join d n) = d.
Proof. intros. unfold posix_dirname. by rewrite split_join. Qed.

Lemma child_name_join d n :
  absolute_dir d → has_slash n = false → is_empty n = false →
  child_name d (join d n) = Some n.
Proof.
  intros Hd Hn Hne. unfold child_name. rewrite (split_join d n Hd Hn).
  rewrite Hne. simpl. by rewrite !bool_decide_eq_true_2.
Qed.

Lemma child_name_Some d p n : child_name d p = Some n → p = join d n.
Proof.
  unfold child_name. destruct (posix_split p) as [h t].
  destruct (bool_decide (h = d)); simpl; [|done].
  destruct (is_empty t); simpl; [done|].
  case_bool_decide; [|done]. by intros [= <-].
Qed.

Lemma join_inj d a b :
  absolute_dir d → has_slash a = false → has_slash b = false →
  join d a = join d b → a = b.
Proof.
  intros Hd Ha Hb. rewrite (join_name d a Hd Ha), (join_name d b Hd Hb).
  apply String.app_inj.
Qed.
(** ** Running computations *)

Lemma exec_ret {A} (a : A) w : exec (ret a) w = (Return a, w).
Proof. reflexivity. Qed.

Lemma exec_raise {A} x w : exec (raise (A:=A) x) w = (Raise x, w).
Proof. reflexivity. Qed.

Lemma exec_bind {A B} (m : M A) (k : A → M B) w :
  exec (bind m k) w =
  match exec m w with
  | (Return a, w') => exec (k a) w'
  | (Raise x, w') => (Raise x, w')
  end.
Proof. unfold exec, bind. by destruct (outcome_of (m w)). Qed.

Lemma exec_probe fault p test w :
  fault (SysStat p) = None →
  exec (probe fault p test) w = (Return (test (w_fs w !! p)), w).
Proof. intros H. unfold exec, probe. by rewrite H. Qed.

Lemma exec_call {A} fault sc ex (sem : gmap string node → errno + A * gmap string node) w :
  fault sc = None →
  exec (call fault sc ex sem) w =
  match sem (w_fs w) with
  | inl e => (Raise (ex e), w)
  | inr (a, fs') => (Return a, World fs' (w_clock w))
  end.
Proof.
  intros H. unfold exec, call. rewrite H.
  by destruct (sem (w_fs w)) as [e|[a fs']].
Qed.

Lemma exec_time w : exec time_time w = (Return (w_clock w), w).
Proof. reflexivity. Qed.

Lemma is_expired_lt now t : is_expired now t = true ↔ (inject_Z t < now)%Q.
Proof.
  unfold is_expired. rewrite negb_true_iff. split.
  - intros H. apply Qnot_le_lt. intros Hle. apply Qle_bool_iff in Hle. congruence.
  - intros H. destruct (Qle_bool now (inject_Z t)) eqn:E; [|done].
    apply Qle_bool_iff in E. by apply Qlt_not_le in H.
Qed.

Lemma key_paths_ne d k :
  absolute_dir d → has_slash k = false →
  join d k ≠ join d ("." +:+ k +:+ ".expires").
Proof.
  intros Hd Hk H. 
  assert (has_slash ("." +:+ k +:+ ".expires") = false) as Hk'.
  { rewrite app_cons, app_nil. cbn [has_slash]. 
    change (is_slash ".") with false. cbn [orb].
    clear H. induction k as [|c k IH]; [done|].
    rewrite app_cons. cbn [has_slash] in *. apply orb_false_elim in Hk as [-> Hk].
    by apply IH. }
  apply (join_inj d _ _ Hd Hk Hk') in H.
  apply (f_equal String.length) in H. rewrite app_cons, app_nil in H.
  cbn [String.length] in H. rewrite length_app in H. simpl in H. lia.
Qed.

(** ** The operations in an environment without injected faults *)

Ltac exec_prim :=
  repeat first
    [ rewrite exec_bind
    | rewrite exec_ret
    | rewrite exec_raise
    | rewrite exec_time
    | rewrite exec_probe by reflexivity
    | rewrite exec_call by reflexivity ];
  cbn [w_fs w_clock].

Lemma valid_key_no_slash k : valid_key k → has_slash k = false.
Proof. by intros (_ & ? & _). Qed.

Lemma valid_key_nonempty k : valid_key k → is_empty k = false.
Proof. by intros (? & _). Qed.

Lemma creatable_join fs d n m :
  absolute_dir d → has_slash n = false → fs !! d = Some (Dir m) →
  creatable fs (join d n) = None.
Proof. intros Hd Hn H. unfold creatable. by rewrite dirname_join, H. Qed.

Lemma expiry_name_no_slash k :
  has_slash k = false → has_slash ("." +:+ k +:+ ".expires") = false.
Proof.
  intros Hk. rewrite app_cons, app_nil. cbn [has_slash].
  change (is_slash ".") with false. cbn [orb].
  induction k as [|c k IH]; [done|].
  rewrite app_cons. cbn [has_slash] in *. apply orb_false_elim in Hk as [-> Hk].
  by apply IH.
Qed.

Lemma join_ne_dir d n :
  absolute_dir d → has_slash n = false → is_empty n = false → join d n ≠ d.
Proof.
  intros Hd Hn Hne H. rewrite (join_name d n Hd Hn) in H.
  apply (f_equal String.length) in H. rewrite length_app in H.
  destruct n; [done|]. destruct (ends_with_slash d).
  - simpl in H. lia.
  - rewrite length_app in H. simpl in H. lia.
Qed.

Lemma exec_open_write fs clk p v :
  is_dir (fs !! p) = false → creatable fs p = None →
  exec (open_w no_fault p >> f_write no_fault p v) (World fs clk)
  = (Return tt, World (<[p := File v]> fs) clk).
Proof.
  intros Hp Hc. unfold open_w, f_write. exec_prim.
  destruct (fs !! p) as [[s|m]|] eqn:E; [| done |rewrite Hc];
    exec_prim; rewrite lookup_insert_eq; by rewrite insert_insert_eq.
Qed.

Lemma exec_write_file {A} (K : M A) fs clk p v :
  is_dir (fs !! p) = false → creatable fs p = None →
  exec (open_w no_fault p >> f_write no_fault p v >> K) (World fs clk)
  = exec K (World (<[p := File v]> fs) clk).
Proof.
  intros Hp Hc. unfold open_w, f_write. exec_prim.
  destruct (fs !! p) as [[s|m]|] eqn:E; [| done |rewrite Hc];
    exec_prim; rewrite lookup_insert_eq; by rewrite insert_insert_eq.
Qed.

Lemma exec_unlink_if_exists fs clk p :
  is_dir (fs !! p) = false →
  exec (let! present := path_exists no_fault p in
        if present then unlink no_fault p else ret tt) (World fs clk)
  = (Return tt, World (delete p fs) clk).
Proof.
  intros Hp. unfold path_exists, unlink. exec_prim.
  destruct (fs !! p) as [[s|m]|] eqn:E; [| done |]; cbn [is_present]; exec_prim.
  - by rewrite E.
  - by rewrite delete_id.
Qed.

Lemma exec_read_file fs clk p s :
  fs !! p = Some (File s) →
  exec (open_r no_fault p >> let! v := f_read no_fault p in ret (Some v)) (World fs clk)
  = (Return (Some s), World fs clk).
Proof. intros Hp. unfold open_r, f_read. exec_prim. rewrite Hp. exec_prim. by rewrite Hp. Qed.

Section store.
Context (d : string) (Hd : absolute_dir d).
Context (k : string) (Hk : valid_key k).

Local Abbreviation self := (attributes d).
Local Abbreviation key_path := (key_path (attributes d) k).
Local Abbreviation expire_path := (expire_path (attributes d) k).

Lemma key_path_ne_expire_path : key_path ≠ expire_path.
Proof. apply key_paths_ne; [done | by apply valid_key_no_slash]. Qed.

Lemma save_exec fs clk v e m :
  fs !! d = Some (Dir m) →
  is_dir (fs !! key_path) = false → is_dir (fs !! expire_path) = false →
  exec (save no_fault self k v e) (World fs clk)
  = (Return tt,
     World (match e with
            | Some x => <[expire_path := File x]> (<[key_path := File v]> fs)
            | None => delete expire_path (<[key_path := File v]> fs)
            end) clk).
Proof.
  intros Hdir Hkp Hep. pose proof key_path_ne_expire_path as Hne.
  pose proof (valid_key_no_slash k Hk) as Hns.
  unfold save. change (_key_paths self k) with (key_path, expire_path). cbn iota.
  rewrite exec_write_file; [| done | by eapply creatable_join].
  destruct e as [x|].
  - apply exec_open_write; [by rewrite lookup_insert_ne|].
    eapply creatable_join; [done | by apply expiry_name_no_slash |].
    rewrite lookup_insert_ne; [done|].
    apply join_ne_dir; [done.. | by apply valid_key_nonempty].
  - apply exec_unlink_if_exists. by rewrite lookup_insert_ne.
Qed.

Lemma clear_exec fs clk :
  is_dir (fs !! key_path) = false → is_dir (fs !! expire_path) = false →
  exec (clear no_fault self k) (World fs clk)
  = (Return tt, World (delete expire_path (delete key_path fs)) clk).
Proof.
  intros Hkp Hep. pose proof key_path_ne_expire_path as Hne.
  unfold clear. change (_key_paths self k) with (key_path, expire_path). cbn iota.
  rewrite exec_bind, exec_unlink_if_exists by done.
  apply exec_unlink_if_exists. by rewrite lookup_delete_ne.
Qed.

(** What [load] does, by the state of the two files. *)
Lemma load_exec_no_expiry fs clk :
  fs !! expire_path = None →
  exec (load no_fault self k) (World fs clk)
  = match fs !! key_path with
    | Some (File v) => (Return (Some v), World fs clk)
    | Some (Dir _) => (Raise (IOError EISDIR), World fs clk)
    | None => (Return None, World fs clk)
    end.
Proof.
  intros Hep. unfold load. change (_key_paths self k) with (key_path, expire_path).
  cbn iota. unfold path_exists. exec_prim. rewrite Hep. cbn [is_present]. exec_prim.
  destruct (fs !! key_path) as [[v|m]|] eqn:E; cbn [is_present].
  - by apply exec_read_file.
  - unfold open_r. exec_prim. by rewrite E.
  - by exec_prim.
Qed.

Lemma load_exec_bad_expiry fs clk e :
  fs !! expire_path = Some (File e) → py_int e = None →
  exec (load no_fault self k) (World fs clk) = (Raise (ValueError e), World fs clk).
Proof.
  intros Hep He. unfold load. change (_key_paths self k) with (key_path, expire_path).
  cbn iota. unfold path_exists, open_r, f_read. exec_prim. rewrite Hep.
  cbn [is_present]. exec_prim. rewrite Hep. exec_prim. rewrite Hep. exec_prim.
  rewrite He. by exec_prim.
Qed.

Lemma load_exec_expiry fs clk e t :
  fs !! expire_path = Some (File e) → py_int e = Some t →
  is_dir (fs !! key_path) = false →
  exec (load no_fault self k) (World fs clk)
  = if is_expired clk t
    then (Return None, World (delete expire_path (delete key_path fs)) clk)
    else match fs !! key_path with
         | Some (File v) => (Return (Some v), World fs clk)
         | _ => (Return None, World fs clk)
         end.
Proof.
  intros Hep He Hkp. unfold load. change (_key_paths self k) with (key_path, expire_path).
  cbn iota. unfold path_exists at 1. unfold open_r at 1. unfold f_read at 1.
  exec_prim. rewrite Hep.
  cbn [is_present]. exec_prim. rewrite Hep. exec_prim. rewrite Hep. exec_prim.
  rewrite He. exec_prim. destruct (is_expired clk t).
  - exec_prim. rewrite clear_exec; [done.. | by rewrite Hep].
  - unfold path_exists. exec_prim.
    destruct (fs !! key_path) as [[v|m]|] eqn:E; cbn [is_present]; [| done |].
    + by apply exec_read_file.
    + by exec_prim.
Qed.



End store.

(** ** Saving and loading *)

(** C1.  In a store whose directory exists, for a valid key whose two paths
    are not directories, [save(k, v)] without expiration succeeds, and a
    [load(k)] that follows it, at whatever time, returns exactly [v] and
    changes nothing. *)
Theorem save_load_roundtrip (d k v : string) (m : Z) (w : world) :
  absolute_dir d → valid_key k →
  w_fs w !! d = Some (Dir m) →
  is_dir (w_fs w !! key_path (attributes d) k) = false →
  is_dir (w_fs w !! expire_path (attributes d) k) = false →
  ∃ w', exec (save no_fault (attributes d) k v None) w = (Return tt, w')
        ∧ ∀ t, exec (load no_fault (attributes d) k) (set_clock t w')
               = (Return (Some v), set_clock t w').
Proof.
  intros Hd Hk Hdir Hkp Hep. destruct w as [fs clk]. cbn [w_fs] in *.
  eexists. split; [by eapply save_exec|].
  intros t. unfold set_clock. cbn [w_fs w_clock].
  rewrite load_exec_no_expiry by (done || apply lookup_delete_eq).
  rewrite lookup_delete_ne by (symmetry; by apply key_path_ne_expire_path).
  by rewrite lookup_insert_eq.
Qed.

Lemma save_load_roundtrip_witness :
  ∃ w', exec (save no_fault (attributes "/srv/will") "greeting" "hello" None)
             (World {[ "/srv/will" := Dir 448 ]} 0) = (Return tt, w')
        ∧ ∀ t, exec (load no_fault (attributes "/srv/will") "greeting") (set_clock t w')
               = (Return (Some "hello"), set_clock t w').
Proof.
  apply (save_load_roundtrip "/srv/will" "greeting" "hello" 448).
  - split; [reflexivity | right; reflexivity].
  - repeat split; done.
  - vm_compute; reflexivity.
  - vm_compute; reflexivity.
  - vm_compute; reflexivity.
Defined.

(** ** Expiration *)

(** C2.  When the expiry file of a key holds the integer [t], [load] takes
    the entry as expired (deletes its files and answers nothing) exactly when
    the clock reads strictly more than [t]; otherwise, and in particular when
    the clock reads exactly [t], it answers from the value file and leaves
    the world as it is.  The stored timestamp is an integer; the clock may
    read any fraction of a second. *)
Theorem load_expiry_boundary (d k e : string) (t : Z) (w : world) :
  absolute_dir d → valid_key k →
  w_fs w !! expire_path (attributes d) k = Some (File e) →
  py_int e = Some t →
  is_dir (w_fs w !! key_path (attributes d) k) = false →
  let r := exec (load no_fault (attributes d) k) w in
  ((inject_Z t < w_clock w)%Q → r = (Return None, cleared (attributes d) k w))
  ∧ (¬ (inject_Z t < w_clock w)%Q →
       r = (Return (value_at (w_fs w) (key_path (attributes d) k)), w))
  ∧ (w_clock w = inject_Z t →
       r = (Return (value_at (w_fs w) (key_path (attributes d) k)), w))
  ∧ ((inject_Z t < w_clock w)%Q
       ↔ w_fs r.2 !! expire_path (attributes d) k = None).
Proof.
  intros Hd Hk Hep He Hkp r. destruct w as [fs clk]. cbn [w_fs w_clock] in *.
  assert (r = if is_expired clk t
              then (Return None, cleared (attributes d) k (World fs clk))
              else (Return (value_at fs (key_path (attributes d) k)), World fs clk)) as Hr.
  { subst r. rewrite (load_exec_expiry d Hd k Hk fs clk e t Hep He Hkp).
    destruct (is_expired clk t); [done|]. unfold value_at.
    by destruct (fs !! key_path (attributes d) k) as [[?|?]|]. }
  clearbody r. subst r. pose proof (is_expired_lt clk t) as Hlt.
  destruct (is_expired clk t).
  - assert (inject_Z t < clk)%Q as H by (by apply Hlt).
    repeat split; try done.
    + intros ->. by apply Qlt_irrefl in H.
    + intros _. apply lookup_delete_eq.
  - assert (¬ (inject_Z t < clk)%Q) as H by (intros H%Hlt; done).
    repeat split; try done.
    intros H'. change (fs !! expire_path (attributes d) k = None) in H'.
    by rewrite Hep in H'.
Qed.

Lemma load_expiry_boundary_witness :
  let d := "/srv/will" in
  let w := World {[ "/srv/will" := Dir 448; "/srv/will/token" := File "abc";
                    "/srv/will/.token.expires" := File "100" ]} 100 in
  exec (load no_fault (attributes d) "token") w = (Return (Some "abc"), w).
Proof.
  intros d w.
  refine (proj1 (proj2 (proj2 (load_expiry_boundary d "token" "100" 100 w _ _ _ _ _))) _).
  - split; [reflexivity | right; reflexivity].
  - repeat split; done.
  - vm_compute; reflexivity.
  - vm_compute; reflexivity.
  - vm_compute; reflexivity.
  - reflexivity.
Defined.

(** C3.  When the expiry file of a key holds an integer strictly below the
    clock, [load] answers nothing, without an error, and leaves the world
    [clear] leaves: both files of the key are gone and every other path is
    as it was. *)
Theorem load_expired_clears (d k e : string) (t : Z) (w : world) :
  absolute_dir d → valid_key k →
  w_fs w !! expire_path (attributes d) k = Some (File e) →
  py_int e = Some t →
  (inject_Z t < w_clock w)%Q →
  is_dir (w_fs w !! key_path (attributes d) k) = false →
  ∃ w', exec (load no_fault (attributes d) k) w = (Return None, w')
        ∧ exec (clear no_fault (attributes d) k) w = (Return tt, w')
        ∧ w_fs w' !! key_path (attributes d) k = None
        ∧ w_fs w' !! expire_path (attributes d) k = None
        ∧ ∀ p, p ≠ key_path (attributes d) k → p ≠ expire_path (attributes d) k →
               w_fs w' !! p = w_fs w !! p.
Proof.
  intros Hd Hk Hep He Hlt Hkp. exists (cleared (attributes d) k w).
  destruct w as [fs clk]. cbn [w_fs w_clock] in *. unfold cleared. cbn [w_fs w_clock].
  rewrite (load_exec_expiry d Hd k Hk fs clk e t Hep He Hkp).
  rewrite (proj2 (is_expired_lt clk t) Hlt).
  rewrite (clear_exec d Hd k Hk) by (done || by rewrite Hep).
  repeat split.
  - rewrite lookup_delete_ne by (symmetry; by apply key_path_ne_expire_path).
    apply lookup_delete_eq.
  - apply lookup_delete_eq.
  - intros p H1 H2. by rewrite !lookup_delete_ne.
Qed.

Lemma load_expired_clears_witness :
  let d := "/srv/will" in
  let w := World {[ "/srv/will" := Dir 448; "/srv/will/token" := File "abc";
                    "/srv/will/.token.expires" := File "100" ]} (201 # 2) in
  ∃ w', exec (load no_fault (attributes d) "token") w = (Return None, w')
        ∧ exec (clear no_fault (attributes d) "token") w = (Return tt, w')
        ∧ w_fs w' !! key_path (attributes d) "token" = None
        ∧ w_fs w' !! expire_path (attributes d) "token" = None
        ∧ ∀ p, p ≠ key_path (attributes d) "token" →
               p ≠ expire_path (attributes d) "token" →
               w_fs w' !! p = w_fs w !! p.
Proof.
  intros d w. apply (load_expired_clears d "token" "100" 100 w).
  - split; [reflexivity | right; reflexivity].
  - repeat split; done.
  - vm_compute; reflexivity.
  - vm_compute; reflexivity.
  - reflexivity.
  - vm_compute; reflexivity.
Defined.

(** C9.  An expiry file that has not expired, with no value file next to it:
    [load] answers nothing and leaves every file, the expiry file included, as
    it was. *)
Theorem load_orphan_expiry (d k e : string) (t : Z) (w : world) :
  absolute_dir d → valid_key k →
  w_fs w !! expire_path (attributes d) k = Some (File e) →
  py_int e = Some t →
  ¬ (inject_Z t < w_clock w)%Q →
  w_fs w !! key_path (attributes d) k = None →
  exec (load no_fault (attributes d) k) w = (Return None, w)
  ∧ w_fs (exec (load no_fault (attributes d) k) w).2 !! expire_path (attributes d) k
    = Some (File e).
Proof.
  intros Hd Hk Hep He Hlt Hkp. destruct w as [fs clk]. cbn [w_fs w_clock] in *.
  rewrite (load_exec_expiry d Hd k Hk fs clk e t Hep He) by (by rewrite Hkp).
  destruct (is_expired clk t) eqn:E; [by apply is_expired_lt in E|].
  by rewrite Hkp.
Qed.

Lemma load_orphan_expiry_witness :
  let d := "/srv/will" in
  let w := World {[ "/srv/will" := Dir 448;
                    "/srv/will/.token.expires" := File "100" ]} 99 in
  exec (load no_fault (attributes d) "token") w = (Return None, w)
  ∧ w_fs (exec (load no_fault (attributes d) "token") w).2
      !! expire_path (attributes d) "token" = Some (File "100").
Proof.
  intros d w. apply (load_orphan_expiry d "token" "100" 100 w).
  - split; [reflexivity | right; reflexivity].
  - repeat split; done.
  - vm_compute; reflexivity.
  - vm_compute; reflexivity.
  - intros H. vm_compute in H. discriminate H.
  - vm_compute; reflexivity.
Defined.

(** C10.  When the expiry file of a key exists, [load] answers only if
    [int] accepts the whole content of that file; if it does not, [load]
    ends in the [ValueError] of the conversion, and no file has changed. *)
Theorem load_bad_expiry (d k e : string) (w : world) :
  w_fs w !! expire_path (attributes d) k = Some (File e) →
  (py_int e = None →
     exec (load no_fault (attributes d) k) w = (Raise (ValueError e), w))
  ∧ (∀ r w', exec (load no_fault (attributes d) k) w = (Return r, w') →
       is_Some (py_int e)).
Proof.
  intros Hep. destruct w as [fs clk]. cbn [w_fs] in *.
  assert (py_int e = None →
          exec (load no_fault (attributes d) k) (World fs clk)
          = (Raise (ValueError e), World fs clk)) as H.
  { intros He. by apply load_exec_bad_expiry. }
  split; [done|]. intros r w' Hr. destruct (py_int e) as [t|]; [by eexists|].
  rewrite H in Hr by done. discriminate Hr.
Qed.

Lemma load_bad_expiry_witness :
  let d := "/srv/will" in
  let w := World {[ "/srv/will" := Dir 448; "/srv/will/token" := File "abc";
                    "/srv/will/.token.expires" := File "12.5" ]} 0 in
  exec (load no_fault (attributes d) "token") w = (Raise (ValueError "12.5"), w).
Proof.
  intros d w. refine (proj1 (load_bad_expiry d "token" "12.5" w _) _).
  - vm_compute; reflexivity.
  - vm_compute; reflexivity.
Defined.

(** ** Clearing *)

Lemma exec_probe_absent fault p w :
  w_fs w !! p = None → exec (path_exists fault p) w = (Return false, w).
Proof.
  intros H. unfold exec, path_exists, probe.
  destruct (fault (SysStat p)); [done|]. by rewrite H.
Qed.

(** C7.  [clear(k)] removes the value file and the expiry file of [k],
    whichever of them exist, and nothing else; when neither exists it
    succeeds and leaves the world as it is, whatever the environment. *)
Theorem clear_deletes_both (d k : string) (w : world) :
  absolute_dir d → valid_key k →
  is_dir (w_fs w !! key_path (attributes d) k) = false →
  is_dir (w_fs w !! expire_path (attributes d) k) = false →
  exec (clear no_fault (attributes d) k) w = (Return tt, cleared (attributes d) k w)
  ∧ w_fs (cleared (attributes d) k w) !! key_path (attributes d) k = None
  ∧ w_fs (cleared (attributes d) k w) !! expire_path (attributes d) k = None
  ∧ (∀ p, p ≠ key_path (attributes d) k → p ≠ expire_path (attributes d) k →
          w_fs (cleared (attributes d) k w) !! p = w_fs w !! p)
  ∧ (w_fs w !! key_path (attributes d) k = None →
     w_fs w !! expire_path (attributes d) k = None →
     ∀ fault, exec (clear fault (attributes d) k) w = (Return tt, w)).
Proof.
  intros Hd Hk Hkp Hep. destruct w as [fs clk]. unfold cleared. cbn [w_fs w_clock] in *.
  repeat split.
  - by apply clear_exec.
  - rewrite lookup_delete_ne by (symmetry; by apply key_path_ne_expire_path).
    apply lookup_delete_eq.
  - apply lookup_delete_eq.
  - intros p H1 H2. by rewrite !lookup_delete_ne.
  - intros H1 H2 fault. unfold clear.
    change (_key_paths (attributes d) k)
      with (key_path (attributes d) k, expire_path (attributes d) k). cbn iota.
    rewrite !exec_bind, exec_probe_absent by done. cbn beta iota.
    rewrite exec_ret. cbn beta iota.
    rewrite exec_bind, exec_probe_absent by done. by rewrite exec_ret.
Qed.

Lemma clear_deletes_both_witness :
  let d := "/srv/will" in
  let w := World {[ "/srv/will" := Dir 448; "/srv/will/token" := File "abc";
                    "/srv/will/.token.expires" := File "100" ]} 0 in
  exec (clear no_fault (attributes d) "token") w
  = (Return tt, World {[ "/srv/will" := Dir 448 ]} 0).
Proof.
  intros d w.
  refine (eq_trans (proj1 (clear_deletes_both d "token" w _ _ _ _)) _).
  - split; [reflexivity | right; reflexivity].
  - repeat split; done.
  - vm_compute; reflexivity.
  - vm_compute; reflexivity.
  - vm_compute; reflexivity.
Defined.

(** ** The paths of different keys *)

Lemma has_nul_app s t : has_nul (s +:+ t) = has_nul s || has_nul t.
Proof.
  induction s as [|c s IH]; [done|]. rewrite app_cons. cbn [has_nul].
  by rewrite IH, orb_assoc.
Qed.

Lemma valid_key_expiry_name k :
  valid_key k → valid_key ("." +:+ k +:+ ".expires").
Proof.
  intros (Hne & Hs & Hn & _). repeat split.
  - by apply expiry_name_no_slash.
  - rewrite !has_nul_app, Hn. reflexivity.
  - intros H. apply (f_equal String.length) in H. rewrite !length_app in H.
    simpl in H. lia.
  - intros H. apply (f_equal String.length) in H. rewrite !length_app in H.
    simpl in H. lia.
Qed.

Lemma expiry_name_ne k : "." +:+ k +:+ ".expires" ≠ k.
Proof.
  intros H. apply (f_equal String.length) in H. rewrite !length_app in H.
  simpl in H. lia.
Qed.

(** C8.  The expiry file of a key [k] is the value file of the key
    [.k.expires], a different key, and the ownership marker is the value file
    of the key [.will_settings]: a [save] under either of these keys leaves
    its value in the expiry file of [k], or in the marker. *)
Theorem key_paths_alias (d k v : string) (e : option string) (m : Z) (w : world) :
  let self := attributes d in
  let k' := "." +:+ k +:+ ".expires" in
  k' ≠ k
  ∧ expire_path self k = key_path self k'
  ∧ dotfile self = key_path self ".will_settings"
  ∧ (absolute_dir d → valid_key k → w_fs w !! d = Some (Dir m) →
     is_dir (w_fs w !! key_path self k') = false →
     is_dir (w_fs w !! expire_path self k') = false →
     ∃ w', exec (save no_fault self k' v e) w = (Return tt, w')
           ∧ w_fs w' !! expire_path self k = Some (File v))
  ∧ (absolute_dir d → w_fs w !! d = Some (Dir m) →
     is_dir (w_fs w !! key_path self ".will_settings") = false →
     is_dir (w_fs w !! expire_path self ".will_settings") = false →
     ∃ w', exec (save no_fault self ".will_settings" v e) w = (Return tt, w')
           ∧ w_fs w' !! dotfile self = Some (File v)).
Proof.
  intros self k'. destruct w as [fs clk]. cbn [w_fs].
  assert (∀ key, valid_key key → absolute_dir d → fs !! d = Some (Dir m) →
            is_dir (fs !! key_path self key) = false →
            is_dir (fs !! expire_path self key) = false →
            ∃ w', exec (save no_fault self key v e) (World fs clk) = (Return tt, w')
                  ∧ w_fs w' !! key_path self key = Some (File v)) as Hsave.
  { intros key Hk Hd Hdir Hkp Hep. eexists. split; [by eapply save_exec|].
    cbn [w_fs]. pose proof (key_path_ne_expire_path d Hd key Hk) as Hne.
    destruct e as [x|].
    - rewrite lookup_insert_ne by done. apply lookup_insert_eq.
    - rewrite lookup_delete_ne by done. apply lookup_insert_eq. }
  split; [apply expiry_name_ne|]. split; [reflexivity|]. split; [reflexivity|]. split.
  - intros Hd Hk Hdir Hkp Hep.
    apply (Hsave k'); [by apply valid_key_expiry_name | done..].
  - intros Hd Hdir Hkp Hep.
    apply (Hsave ".will_settings"); [repeat split; done | done..].
Qed.

Lemma key_paths_alias_witness :
  let d := "/srv/will" in
  let w := World {[ "/srv/will" := Dir 448; "/srv/will/.will_settings" := File "";
                    "/srv/will/token" := File "abc";
                    "/srv/will/.token.expires" := File "100" ]} 0 in
  (∃ w', exec (save no_fault (attributes d) ".token.expires" "soon" None) w
         = (Return tt, w')
         ∧ w_fs w' !! expire_path (attributes d) "token" = Some (File "soon"))
  ∧ (∃ w', exec (save no_fault (attributes d) ".will_settings" "mine" None) w
           = (Return tt, w')
           ∧ w_fs w' !! dotfile (attributes d) = Some (File "mine")).
Proof.
  intros d w.
  pose proof (key_paths_alias d "token" "soon" None 448 w) as (_ & _ & _ & H1 & _).
  pose proof (key_paths_alias d "token" "mine" None 448 w) as (_ & _ & _ & _ & H2).
  split.
  - apply H1.
    + split; [reflexivity | right; reflexivity].
    + repeat split; done.
    + vm_compute; reflexivity.
    + vm_compute; reflexivity.
    + vm_compute; reflexivity.
  - apply H2.
    + split; [reflexivity | right; reflexivity].
    + vm_compute; reflexivity.
    + vm_compute; reflexivity.
    + vm_compute; reflexivity.
Defined.

(** ** Initialisation *)

Lemma rsplit_tail_no_slash p : has_slash (rsplit_slash p).2 = false.
Proof.
  induction p as [|c p IH]; [done|]. cbn [rsplit_slash].
  destruct (rsplit_slash p) as [h t]. cbn [snd] in IH.
  destruct (is_slash c) eqn:Ec; cbn [orb]; [done|].
  destruct (is_empty h); cbn [negb snd]; [|done].
  cbn [has_slash]. by rewrite Ec, IH.
Qed.

Lemma child_name_component d p n :
  child_name d p = Some n → has_slash n = false ∧ is_empty n = false ∧ p = join d n.
Proof.
  intros H. split; [|split; [|by apply child_name_Some]]; revert H;
    unfold child_name, posix_split; pose proof (rsplit_tail_no_slash p) as Ht;
    destruct (rsplit_slash p) as [h t]; cbn [snd] in Ht;
    destruct (bool_decide _); cbn [andb]; try done;
    destruct (is_empty t) eqn:Et; cbn [negb andb]; try done;
    case_bool_decide; try done; by intros [= <-].
Qed.

Lemma elem_of_entries fs d n :
  absolute_dir d →
  n ∈ entries fs d
  ↔ has_slash n = false ∧ is_empty n = false ∧ is_present (fs !! join d n) = true.
Proof.
  intros Hd. unfold entries. rewrite list_elem_of_omap. split.
  - intros (p & Hp & Hn). apply child_name_component in Hn as (? & ? & ->).
    apply list_elem_of_fmap in Hp as ([p x] & -> & Hp).
    apply elem_of_map_to_list in Hp. cbn [fst]. by rewrite Hp.
  - intros (Hs & Hne & Hp). exists (join d n). split; [|by apply child_name_join].
    destruct (fs !! join d n) as [x|] eqn:E; [|done].
    apply list_elem_of_fmap. exists (join d n, x). split; [done|].
    by apply elem_of_map_to_list.
Qed.

Lemma exec_filter_isfile d names w :
  exec (filter_M (λ f, path_isfile no_fault (join d f)) names) w
  = (Return (List.filter (λ f, is_file (w_fs w !! join d f)) names), w).
Proof.
  induction names as [|n names IH]; [done|]. cbn [filter_M List.filter].
  unfold path_isfile at 1. rewrite exec_bind, exec_probe by done.
  cbn beta iota. rewrite exec_bind, IH. cbn beta iota. by rewrite exec_ret.
Qed.

Lemma exec_all_setting_files d fs clk m :
  fs !! d = Some (Dir m) →
  exec (_all_setting_files no_fault (attributes d)) (World fs clk)
  = (Return (setting_files fs d), World fs clk).
Proof.
  intros Hdir. unfold _all_setting_files, listdir. cbn [attributes dirname].
  rewrite exec_bind, exec_call by done. cbn [w_fs w_clock]. rewrite Hdir.
  cbn beta iota. rewrite exec_bind, exec_filter_isfile. by cbn beta iota.
Qed.

Lemma elem_of_setting_files fs d p :
  absolute_dir d →
  p ∈ setting_files fs d
  ↔ ∃ n, p = join d n ∧ has_slash n = false ∧ is_empty n = false
         ∧ is_file (fs !! join d n) = true.
Proof.
  intros Hd. unfold setting_files. rewrite list_elem_of_fmap. split.
  - intros (n & -> & Hn). exists n. split; [done|].
    apply list_elem_of_In, filter_In in Hn as [Hn Hf].
    apply list_elem_of_In, elem_of_entries in Hn as (? & ? & ?); done.
  - intros (n & -> & Hs & Hne & Hf). exists n. split; [done|].
    apply list_elem_of_In, filter_In. split; [|done].
    apply list_elem_of_In, elem_of_entries; [done|].
    repeat split; try done. by destruct (fs !! join d n) as [[?|?]|].
Qed.

Lemma setting_files_nonempty fs d :
  absolute_dir d → (0 < length (setting_files fs d))%nat ↔ has_regular_file fs d.
Proof.
  intros Hd. split.
  - destruct (setting_files fs d) as [|p l] eqn:E; [simpl; lia|]. intros _.
    assert (p ∈ setting_files fs d) as Hp by (rewrite E; left).
    apply elem_of_setting_files in Hp as (n & -> & Hs & Hne & Hf); [|done].
    destruct (fs !! join d n) as [[s|?]|] eqn:E'; try done. by exists n, s.
  - intros (n & s & Hs & Hne & Hf).
    assert (join d n ∈ setting_files fs d) as Hp.
    { apply elem_of_setting_files; [done|]. exists n. by rewrite Hf. }
    destruct (setting_files fs d); [by apply elem_of_nil in Hp | simpl; lia].
Qed.

Lemma prefixes_length acc p a :
  a ∈ prefixes_at_slash acc p →
  (String.length a ≤ String.length acc + String.length p)%nat.
Proof.
  revert acc. induction p as [|c p IH]; intros acc Ha; [by apply elem_of_nil in Ha|].
  cbn [prefixes_at_slash] in Ha. apply elem_of_app in Ha as [Ha|Ha].
  - destruct (is_slash c); [|by apply elem_of_nil in Ha].
    apply list_elem_of_singleton in Ha. subst a.
    destruct acc; simpl; lia.
  - apply IH in Ha. rewrite length_app in Ha. simpl in *. lia.
Qed.

Lemma join_length d n :
  absolute_dir d → has_slash n = false →
  (String.length d + String.length n ≤ String.length (join d n))%nat.
Proof.
  intros Hd Hn. rewrite (join_name d n Hd Hn), length_app.
  destruct (ends_with_slash d); [lia|]. rewrite length_app. lia.
Qed.

Lemma dotfile_not_ancestor d :
  absolute_dir d → dotfile (attributes d) ∉ ancestors d.
Proof.
  intros Hd Ha. apply prefixes_length in Ha. cbn [attributes dotfile] in Ha.
  pose proof (join_length d ".will_settings" Hd eq_refl) as H. simpl in *. lia.
Qed.

Lemma lookup_mkdir_missing mode l (fs : gmap string node) p :
  foldr (mkdir_missing mode) fs l !! p
  = match fs !! p with
    | Some x => Some x
    | None => if bool_decide (p ∈ l) then Some (Dir mode) else None
    end.
Proof.
  induction l as [|a l IH]; cbn [foldr].
  - by destruct (fs !! p).
  - unfold mkdir_missing at 1.
    destruct (decide (a = p)) as [->|Hne].
    + rewrite (bool_decide_eq_true_2 (p ∈ p :: l)) by left.
      destruct (foldr (mkdir_missing mode) fs l !! p) as [x|] eqn:E; cbn [is_present].
      * rewrite E. rewrite IH in E. destruct (fs !! p); [done|].
        by case_bool_decide.
      * rewrite lookup_insert_eq. rewrite IH in E. destruct (fs !! p); [done|done].
    + assert (bool_decide (p ∈ a :: l) = bool_decide (p ∈ l)) as ->.
      { apply bool_decide_ext. rewrite elem_of_cons. naive_solver. }
      destruct (is_present _); [done|]. by rewrite lookup_insert_ne.
Qed.

Lemma exec_claim d fs clk m :
  absolute_dir d → fs !! d = Some (Dir m) →
  is_dir (fs !! dotfile (attributes d)) = false →
  ∃ fs', exec (chmod no_fault d 448 >>
               open_a no_fault (dotfile (attributes d)) >>
               utime no_fault (dotfile (attributes d)) >>
               ret (attributes d)) (World fs clk)
         = (Return (attributes d), World fs' clk)
         ∧ is_file (fs' !! dotfile (attributes d)) = true
         ∧ (∀ p s, fs' !! p = Some (File s)
                   ↔ fs !! p = Some (File s)
                     ∨ (p = dotfile (attributes d) ∧ s = "" ∧ fs !! p = None)).
Proof.
  intros Hd Hdir Hmk. set (mk := dotfile (attributes d)) in *.
  assert (mk ≠ d) as Hne by (by apply join_ne_dir).
  unfold chmod, open_a, utime. exec_prim. rewrite Hdir. exec_prim.
  rewrite lookup_insert_ne by done.
  destruct (fs !! mk) as [[s|?]|] eqn:E; [| done |].
  - exec_prim. rewrite lookup_insert_ne, E by done. exec_prim.
    eexists. split; [done|]. rewrite lookup_insert_ne, E by done. split; [done|].
    intros p s'. destruct (decide (p = d)) as [->|Hp].
    + rewrite lookup_insert_eq, Hdir. naive_solver.
    + rewrite lookup_insert_ne by done. split; [by left|]. intros [?|(-> & _ & ?)]; [done|congruence].
  - unfold creatable. unfold mk at 1. cbn [attributes dotfile].
    rewrite dirname_join, lookup_insert_eq by done. exec_prim.
    rewrite lookup_insert_eq. exec_prim.
    eexists. split; [done|]. rewrite lookup_insert_eq. split; [done|].
    intros p s'. destruct (decide (p = mk)) as [->|Hp].
    + rewrite lookup_insert_eq, E. naive_solver.
    + rewrite lookup_insert_ne by done. destruct (decide (p = d)) as [->|Hp'].
      * rewrite lookup_insert_eq, Hdir. naive_solver.
      * rewrite lookup_insert_ne by done. naive_solver.
Qed.

Lemma exec_path_exists p w :
  exec (path_exists no_fault p) w = (Return (is_present (w_fs w !! p)), w).
Proof. reflexivity. Qed.

(** What [__init__] does: it refuses a foreign directory and changes
    nothing, or it succeeds, and then the marker is a regular file and no
    other regular file has appeared, gone or changed. *)
Lemma init_exec d fs clk :
  absolute_dir d →
  is_file (fs !! d) = false →
  is_dir (fs !! dotfile (attributes d)) = false →
  (fs !! d = None → existsb (λ a, is_file (fs !! a)) (ancestors d) = false) →
  (foreign fs d
   ∧ exec (__init__ no_fault d) (World fs clk)
     = (Raise (FileStorageException (not_empty_message d)), World fs clk))
  ∨ (¬ foreign fs d
     ∧ ∃ fs', exec (__init__ no_fault d) (World fs clk)
              = (Return (attributes d), World fs' clk)
              ∧ is_file (fs' !! dotfile (attributes d)) = true
              ∧ (∀ p s, fs' !! p = Some (File s)
                        ↔ fs !! p = Some (File s)
                          ∨ (p = dotfile (attributes d) ∧ s = "" ∧ fs !! p = None))).
Proof.
  intros Hd Hnf Hmk Hanc. set (mk := dotfile (attributes d)) in *.
  unfold __init__. cbn zeta. fold mk. cbn [attributes dirname].
  rewrite exec_bind. rewrite (exec_bind (path_exists no_fault d)).
  rewrite exec_path_exists. cbn beta iota. cbn [w_fs].
  destruct (fs !! d) as [[s|m]|] eqn:Edir; [done | |]; cbn [is_present negb].
  - (* the directory is there *)
    rewrite exec_bind, exec_path_exists. cbn beta iota. cbn [w_fs].
    destruct (fs !! mk) as [[s|?]|] eqn:Emk; [| done |]; cbn [is_present negb].
    + right. split; [intros (_ & H & _); change (fs !! mk = None) in H; congruence|].
      rewrite exec_ret. cbn beta iota.
      apply (exec_claim d fs clk m); [done.. | by fold mk; rewrite Emk].
    + rewrite exec_bind, (exec_all_setting_files d fs clk m) by done. cbn beta iota.
      pose proof (setting_files_nonempty fs d Hd) as Hfiles.
      case_bool_decide as Hlen.
      * left. split; [|by rewrite exec_raise].
        split; [by rewrite Edir|]. split; [done|]. by apply Hfiles.
      * right. split; [intros (_ & _ & H); by apply Hlen, Hfiles|].
        rewrite exec_ret. cbn beta iota.
        apply (exec_claim d fs clk m); [done.. | by fold mk; rewrite Emk].
  - (* the directory is created *)
    right. split; [intros (H & _); by rewrite Edir in H|].
    unfold makedirs. rewrite exec_call by done. cbn [w_fs w_clock].
    rewrite Edir, Hanc by done. cbn [is_present]. cbn beta iota.
    set (fs1 := foldr (mkdir_missing 448) fs (ancestors d)).
    assert (mk ≠ d) as Hne by (by apply join_ne_dir).
    assert (∀ p s, fs1 !! p = Some (File s) ↔ fs !! p = Some (File s)) as Hfs1.
    { intros p s. unfold fs1. rewrite lookup_mkdir_missing.
      destruct (fs !! p); [done|]. by case_bool_decide. }
    assert (fs1 !! mk = fs !! mk) as Hmk1.
    { unfold fs1. rewrite lookup_mkdir_missing. destruct (fs !! mk); [done|].
      rewrite bool_decide_eq_false_2; [done | by apply dotfile_not_ancestor]. }
    destruct (exec_claim d (<[d := Dir 448]> fs1) clk 448 Hd) as (fs' & Hex & Hfile & Hsame).
    { apply lookup_insert_eq. }
    { fold mk. by rewrite lookup_insert_ne, Hmk1. }
    exists fs'. split; [exact Hex|]. split; [exact Hfile|].
    intros p s. rewrite Hsame. fold mk. destruct (decide (p = d)) as [->|Hp].
    + rewrite lookup_insert_eq, Edir. split.
      * intros [[=]|(? & _)]; done.
      * intros [[=]|(? & _)]; done.
    + rewrite !lookup_insert_ne, Hfs1 by done. split.
      * intros [?|(-> & -> & H)]; [by left|right]. by rewrite <- Hmk1.
      * intros [?|(-> & -> & H)]; [by left|right]. by rewrite Hmk1.
Qed.

(** C4.  In an environment without injected faults, for a target that is
    absent or a directory (if absent, with no regular file in the way of
    creating it) and a marker path that is not a directory: [__init__] raises
    [FileStorageException] exactly when the directory exists, has no marker
    and directly contains a regular file, and then the world is unchanged;
    in every other case it succeeds and the marker is a regular file
    afterwards. *)
Theorem init_rejects_foreign_directory (d : string) (w : world) :
  absolute_dir d →
  is_file (w_fs w !! d) = false →
  is_dir (w_fs w !! dotfile (attributes d)) = false →
  (w_fs w !! d = None →
   existsb (λ a, is_file (w_fs w !! a)) (ancestors d) = false) →
  let r := exec (__init__ no_fault d) w in
  ((∃ msg, r.1 = Raise (FileStorageException msg)) ↔ foreign (w_fs w) d)
  ∧ (foreign (w_fs w) d →
     r = (Raise (FileStorageException (not_empty_message d)), w))
  ∧ (¬ foreign (w_fs w) d →
     ∃ w', r = (Return (attributes d), w')
           ∧ is_file (w_fs w' !! dotfile (attributes d)) = true).
Proof.
  intros Hd Hnf Hmk Hanc r. destruct w as [fs clk]. cbn [w_fs] in *.
  destruct (init_exec d fs clk Hd Hnf Hmk Hanc)
    as [[Hf Hr]|[Hf (fs' & Hr & Hfile & _)]]; fold r in Hr.
  - split; [|split]; [| done | done]. split; [done|]. intros _.
    rewrite Hr. by eexists.
  - split; [|split]; [| done |].
    + split; [|done]. intros [msg H]. rewrite Hr in H. discriminate H.
    + intros _. by eexists.
Qed.

Lemma init_rejects_foreign_directory_witness :
  let d := "/srv/will" in
  let w := World {[ "/srv/will" := Dir 493;
                    "/srv/will/notes.txt" := File "keep me" ]} 0 in
  exec (__init__ no_fault d) w
  = (Raise (FileStorageException
              "/srv/will is not empty, will needs an empty directory for settings"), w).
Proof.
  intros d w.
  refine (proj1 (proj2 (init_rejects_foreign_directory d w _ _ _ _)) _).
  - split; [reflexivity | right; reflexivity].
  - vm_compute; reflexivity.
  - vm_compute; reflexivity.
  - intros H. vm_compute in H. discriminate H.
  - split; [vm_compute; reflexivity|]. split; [vm_compute; reflexivity|].
    exists "notes.txt", "keep me". repeat split.
Defined.

(** An empty directory is claimed, and claiming it again succeeds. *)
Example init_empty_then_again :
  let w := World {[ "/srv/will" := Dir 493 ]} 0 in
  let w' := World {[ "/srv/will" := Dir 448;
                     "/srv/will/.will_settings" := File "" ]} 0 in
  exec (__init__ no_fault "/srv/will") w = (Return (attributes "/srv/will"), w')
  ∧ exec (__init__ no_fault "/srv/will") w' = (Return (attributes "/srv/will"), w').
Proof. split; vm_compute; reflexivity. Qed.

(** A directory that holds only a subdirectory is not foreign. *)
Example init_with_subdirectory :
  let w := World {[ "/srv/will" := Dir 493; "/srv/will/cache" := Dir 493 ]} 0 in
  (exec (__init__ no_fault "/srv/will") w).1 = Return (attributes "/srv/will").
Proof. vm_compute; reflexivity. Qed.

(** ** Failures of the environment *)

Section propagation.
Context (fault : syscall → option errno).
Context (own : exn → Prop).

Lemma propagates_ret {A} (a : A) w : propagates own (ret a w).
Proof.
  split; [intros sc e H; by apply elem_of_nil in H | intros x H; discriminate H].
Qed.

Lemma propagates_raise {A} x w : own x → propagates own (raise (A:=A) x w).
Proof.
  intros Hx. split; [intros sc e H; by apply elem_of_nil in H|].
  intros x' [= <-]. by left.
Qed.

Lemma propagates_time w : propagates own (time_time w).
Proof.
  split; [intros sc e H; by apply elem_of_nil in H | intros x H; discriminate H].
Qed.

Lemma propagates_probe p test w : propagates own (probe fault p test w).
Proof.
  unfold probe. destruct (fault (SysStat p)); split; cbn [events outcome_of].
  - intros sc e' H%list_elem_of_singleton. by injection H as -> _.
  - intros x H. discriminate H.
  - intros sc e' H%list_elem_of_singleton. by injection H as -> _.
  - intros x H. discriminate H.
Qed.

Lemma propagates_call {A} sc ex
    (sem : gmap string node → errno + A * gmap string node) w :
  raises sc = true → (∀ e, ex e = exn_of sc e) →
  propagates own (call fault sc ex sem w).
Proof.
  intros Hsc Hex. unfold call.
  destruct (fault sc) as [e|]; [|destruct (sem (w_fs w)) as [e|[a fs']]];
    split; cbn [events outcome_of].
  - intros sc' e' H%list_elem_of_singleton. injection H as -> ->. by rewrite Hex.
  - intros x [= <-]. right. exists sc, e. split; [by left|]. by rewrite Hex.
  - intros sc' e' H%list_elem_of_singleton. injection H as -> ->. by rewrite Hex.
  - intros x [= <-]. right. exists sc, e. split; [by left|]. by rewrite Hex.
  - intros sc' e' H%list_elem_of_singleton. by injection H as -> H.
  - intros x H. discriminate H.
Qed.

Lemma propagates_bind {A B} (m : M A) (k : A → M B) w :
  propagates own (m w) → (∀ a w', propagates own (k a w')) →
  propagates own (bind m k w).
Proof.
  intros [Hm1 Hm2] Hk. unfold bind.
  destruct (outcome_of (m w)) as [a|x] eqn:E; cbn zeta.
  - destruct (Hk a (final (m w))) as [Hk1 Hk2]. split; cbn [events outcome_of].
    + intros sc e [H|H]%elem_of_app Hsc; [|by apply Hk1].
      by specialize (Hm1 sc e H Hsc).
    + intros x Hx. destruct (Hk2 x Hx) as [?|(sc & e & H & Hsc & ->)]; [by left|].
      right. exists sc, e. split; [|done]. apply elem_of_app. by right.
  - split; cbn [events outcome_of].
    + intros sc e H Hsc. specialize (Hm1 sc e H Hsc). by injection Hm1 as ->.
    + intros x' [= <-]. by apply Hm2.
Qed.
End propagation.

Ltac propagation :=
  repeat first
    [ apply propagates_bind; [|intros ? ?]
    | apply propagates_ret
    | apply propagates_time
    | apply propagates_probe
    | apply propagates_call; [reflexivity | reflexivity]
    | match goal with
      | |- propagates _ ((if ?b then _ else _) _) => destruct b
      | |- propagates _ (match ?o with Some _ => _ | None => _ end _) => destruct o
      end ].

Lemma save_propagates fault self k v e w :
  propagates (λ _, False) (save fault self k v e w).
Proof.
  unfold save, _key_paths, open_w, f_write, path_exists, unlink. cbn zeta.
  propagation.
Qed.

Lemma clear_propagates fault self k w :
  propagates (λ _, False) (clear fault self k w).
Proof.
  unfold clear, _key_paths, path_exists, unlink. cbn zeta. propagation.
Qed.

Lemma load_propagates fault self k w :
  propagates (λ x, ∃ s, x = ValueError s) (load fault self k w).
Proof.
  unfold load, _key_paths. cbn zeta.
  apply propagates_bind; [apply propagates_probe|]. intros has_expiry w1.
  apply propagates_bind.
  - destruct has_expiry; [|apply propagates_ret].
    unfold open_r, f_read. propagation. apply propagates_raise. by eexists.
  - intros expired w2. destruct expired.
    + apply propagates_bind; [|intros; apply propagates_ret].
      destruct (clear_propagates fault self k w2) as [H1 H2].
      split; [done|]. intros x Hx. destruct (H2 x Hx) as [[]|?]. by right.
    + unfold path_exists, open_r, f_read. propagation.
Qed.

Lemma propagates_io_error {A} (own : exn → Prop) (r : run A) x :
  propagates own r → outcome_of r = Raise x → own x ∨ is_io_error x.
Proof.
  intros [_ H] Hx. destruct (H x Hx) as [?|(sc & e & _ & _ & ->)]; [by left|right].
  exists e. destruct sc; cbn; auto.
Qed.

(** C6, as the code has it.  For a valid key of a store at an absolute
    directory: in [save], [load] and [clear] a failed [open], read, write or
    [unlink] ends the operation in the [IOError] or [OSError] of that call,
    unchanged; the operations end in no other exception, but for the
    [ValueError] of [load], and never in [FileStorageException].  A key whose
    files are absent is no error for [load] and [clear], whatever the
    environment.  A failed [os.stat] behind [os.path.exists] is not among
    the calls that raise. *)
Theorem failures_propagate (fault : syscall → option errno)
    (d k v : string) (e : option string) (w : world) :
  absolute_dir d → valid_key k →
  propagates (λ _, False) (save fault (attributes d) k v e w)
  ∧ propagates (λ x, ∃ s, x = ValueError s) (load fault (attributes d) k w)
  ∧ propagates (λ _, False) (clear fault (attributes d) k w)
  ∧ (∀ x, outcome_of (save fault (attributes d) k v e w) = Raise x → is_io_error x)
  ∧ (∀ x, outcome_of (load fault (attributes d) k w) = Raise x →
          (∃ s, x = ValueError s) ∨ is_io_error x)
  ∧ (∀ x, outcome_of (clear fault (attributes d) k w) = Raise x → is_io_error x)
  ∧ (w_fs w !! key_path (attributes d) k = None →
     w_fs w !! expire_path (attributes d) k = None →
     exec (load fault (attributes d) k) w = (Return None, w)
     ∧ exec (clear fault (attributes d) k) w = (Return tt, w)).
Proof.
  intros _ _. set (self := attributes d).
  pose proof (save_propagates fault self k v e w) as Hs.
  pose proof (load_propagates fault self k w) as Hl.
  pose proof (clear_propagates fault self k w) as Hc.
  repeat split; try (by apply Hs); try (by apply Hl); try (by apply Hc).
  - intros x Hx. by destruct (propagates_io_error _ _ x Hs Hx).
  - intros x Hx. by apply (propagates_io_error _ _ x Hl Hx).
  - intros x Hx. by destruct (propagates_io_error _ _ x Hc Hx).
  - unfold load. change (_key_paths self k) with (key_path self k, expire_path self k).
    cbn iota. rewrite exec_bind, exec_probe_absent by done. cbn beta iota.
    rewrite exec_bind, exec_ret. cbn beta iota.
    rewrite exec_bind, exec_probe_absent by done. cbn beta iota. by rewrite exec_ret.
  - unfold clear. change (_key_paths self k) with (key_path self k, expire_path self k).
    cbn iota. rewrite !exec_bind, exec_probe_absent by done. cbn beta iota.
    rewrite exec_ret. cbn beta iota.
    rewrite exec_bind, exec_probe_absent by done. by rewrite exec_ret.
Qed.

Lemma failures_propagate_witness :
  let w := World {[ "/srv/will" := Dir 448 ]} 0 in
  outcome_of (save disk_full (attributes "/srv/will") "token" "abc" None w)
  = Raise (IOError ENOSPC)
  ∧ exec (load disk_full (attributes "/srv/will") "token") w = (Return None, w)
  ∧ exec (clear disk_full (attributes "/srv/will") "token") w = (Return tt, w).
Proof.
  intros w.
  destruct (failures_propagate disk_full "/srv/will" "token" "abc" None w)
    as ([H _] & _ & _ & _ & _ & _ & Habsent).
  - split; [reflexivity | right; reflexivity].
  - repeat split; done.
  - split.
    + apply (H (SysWrite "/srv/will/token") ENOSPC); [|reflexivity].
      apply list_elem_of_In. vm_compute. right. left. reflexivity.
    + apply Habsent; vm_compute; reflexivity.
Defined.

(** C6, as the claim has it, fails: when [os.stat] is refused, [load] of a
    key that has a value answers that there is none, and reports nothing. *)
Lemma stat_failure_is_absence :
  let w := World {[ "/srv/will" := Dir 448;
                    "/srv/will/token" := File "abc" ]} 0 in
  w_fs w !! key_path (attributes "/srv/will") "token" = Some (File "abc")
  ∧ (SysStat "/srv/will/token", Some EACCES)
      ∈ events (load stat_denied (attributes "/srv/will") "token" w)
  ∧ exec (load stat_denied (attributes "/srv/will") "token") w = (Return None, w)
  ∧ ¬ every_failure_reported (load stat_denied (attributes "/srv/will") "token" w).
Proof.
  intros w. split; [vm_compute; reflexivity|].
  assert ((SysStat "/srv/will/token", Some EACCES)
            ∈ events (load stat_denied (attributes "/srv/will") "token" w)) as Hev.
  { apply list_elem_of_In. vm_compute. right. left. reflexivity. }
  split; [done|]. split; [vm_compute; reflexivity|].
  intros H. destruct (H _ _ Hev) as [x Hx]. vm_compute in Hx. discriminate Hx.
Qed.

(** ** The entries and the files *)

Lemma exec_open_write_cases {A} (K : M A) fs clk p v :
  exec (open_w no_fault p >> f_write no_fault p v >> K) (World fs clk)
  = match open_error fs p with
    | None => exec K (World (<[p := File v]> fs) clk)
    | Some e => (Raise (IOError e), World fs clk)
    end.
Proof.
  unfold open_error, open_w, f_write. exec_prim.
  destruct (fs !! p) as [[s|m]|] eqn:E; [| done | destruct (creatable fs p); [done|]];
    exec_prim; rewrite lookup_insert_eq; by rewrite insert_insert_eq.
Qed.

Lemma exec_open_write_cases' fs clk p v :
  exec (open_w no_fault p >> f_write no_fault p v) (World fs clk)
  = match open_error fs p with
    | None => (Return tt, World (<[p := File v]> fs) clk)
    | Some e => (Raise (IOError e), World fs clk)
    end.
Proof.
  unfold open_error, open_w, f_write. exec_prim.
  destruct (fs !! p) as [[s|m]|] eqn:E; [| done | destruct (creatable fs p); [done|]];
    exec_prim; rewrite lookup_insert_eq; by rewrite insert_insert_eq.
Qed.

Lemma exec_unlink_cases fs clk p :
  exec (let! present := path_exists no_fault p in
        if present then unlink no_fault p else ret tt) (World fs clk)
  = if is_dir (fs !! p) then (Raise (OSError EISDIR), World fs clk)
    else (Return tt, World (delete p fs) clk).
Proof.
  unfold path_exists, unlink. exec_prim.
  destruct (fs !! p) as [[s|m]|] eqn:E; cbn [is_present is_dir]; exec_prim.
  - by rewrite E.
  - by rewrite E.
  - by rewrite delete_id.
Qed.

Section inversion.
Context (d : string) (Hd : absolute_dir d).
Context (k : string) (Hk : valid_key k).

Local Abbreviation self := (attributes d).
Local Abbreviation kp := (key_path (attributes d) k).
Local Abbreviation ep := (expire_path (attributes d) k).

Lemma save_Return fs clk v e w' :
  exec (save no_fault self k v e) (World fs clk) = (Return tt, w') →
  w' = World (match e with
              | Some x => <[ep := File x]> (<[kp := File v]> fs)
              | None => delete ep (<[kp := File v]> fs)
              end) clk.
Proof.
  unfold save. change (_key_paths self k) with (kp, ep). cbn iota.
  rewrite exec_open_write_cases. destruct (open_error fs kp); [done|].
  destruct e as [x|].
  - rewrite exec_open_write_cases'. destruct (open_error _ ep); [done|]. by intros [= <-].
  - rewrite exec_unlink_cases. destruct (is_dir _); [done|]. by intros [= <-].
Qed.

Lemma clear_Return fs clk w' :
  exec (clear no_fault self k) (World fs clk) = (Return tt, w') →
  w' = World (delete ep (delete kp fs)) clk.
Proof.
  unfold clear. change (_key_paths self k) with (kp, ep). cbn iota.
  rewrite exec_bind, exec_unlink_cases. destruct (is_dir (fs !! kp)); [done|].
  rewrite exec_unlink_cases. destruct (is_dir _); [done|]. by intros [= <-].
Qed.

Lemma load_Return fs clk r w' :
  exec (load no_fault self k) (World fs clk) = (Return r, w') →
  match fs !! ep with
  | Some (File e) =>
      ∃ t, py_int e = Some t
           ∧ w' = if is_expired clk t
                  then World (delete ep (delete kp fs)) clk
                  else World fs clk
  | _ => fs !! ep = None ∧ w' = World fs clk
  end.
Proof.
  destruct (fs !! ep) as [[e|m]|] eqn:Eep.
  - destruct (py_int e) as [t|] eqn:Et.
    2:{ rewrite (load_exec_bad_expiry d k fs clk e Eep Et). done. }
    intros H. exists t. split; [done|]. revert H.
    unfold load. change (_key_paths self k) with (kp, ep). cbn iota.
    unfold path_exists at 1. unfold open_r at 1. unfold f_read at 1.
    exec_prim. rewrite Eep. cbn [is_present]. exec_prim. rewrite Eep. exec_prim.
    rewrite Eep. exec_prim. rewrite Et. exec_prim. destruct (is_expired clk t).
    + exec_prim. destruct (exec (clear no_fault self k) (World fs clk)) as [[[]|x] w1] eqn:Ec;
        [|done]. apply clear_Return in Ec as ->. by intros [= <- <-].
    + unfold path_exists, open_r, f_read. exec_prim.
      destruct (fs !! kp) as [[v|m]|] eqn:E; cbn [is_present]; exec_prim;
        rewrite ?E; exec_prim; rewrite ?E; try done; by intros [= <- <-].
  - unfold load. change (_key_paths self k) with (kp, ep). cbn iota.
    unfold path_exists at 1. unfold open_r at 1.
    exec_prim. rewrite Eep. cbn [is_present]. exec_prim. by rewrite Eep.
  - rewrite (load_exec_no_expiry d k fs clk Eep).
    destruct (fs !! kp) as [[v|m]|]; [| done |]; by intros [= <- <-].
Qed.
End inversion.

Lemma ends_with_app (a suffix : string) : ends_with suffix (a +:+ suffix) = true.
Proof.
  induction a as [|c a IH].
  - rewrite app_nil. destruct suffix; cbn [ends_with];
      by rewrite bool_decide_eq_true_2.
  - rewrite app_cons. cbn [ends_with]. rewrite IH. apply orb_true_r.
Qed.

Lemma is_expiry_name_spec k : is_expiry_name ("." +:+ k +:+ ".expires") = true.
Proof. rewrite app_cons, app_nil. cbn [is_expiry_name]. apply ends_with_app. Qed.

Lemma expire_path_inj d k k' :
  absolute_dir d → valid_key k → valid_key k' →
  expire_path (attributes d) k = expire_path (attributes d) k' → k = k'.
Proof.
  intros Hd Hk Hk' H. unfold expire_path, _key_paths in H. cbn [snd attributes dirname] in H.
  apply join_inj in H; [|done|by apply expiry_name_no_slash, valid_key_no_slash..].
  rewrite !app_cons, !app_nil in H. injection H as H. by apply app_inj_r in H.
Qed.

Lemma key_path_not_expire_path d k k' :
  absolute_dir d → valid_key k → is_expiry_name k = false → valid_key k' →
  key_path (attributes d) k ≠ expire_path (attributes d) k'.
Proof.
  intros Hd Hk Hn Hk' H. unfold key_path, expire_path, _key_paths in H.
  cbn [fst snd attributes dirname] in H.
  apply join_inj in H;
    [|done|by apply valid_key_no_slash|by apply expiry_name_no_slash, valid_key_no_slash].
  rewrite H, is_expiry_name_spec in Hn. discriminate Hn.
Qed.

Lemma expiry_inv_exists self m w : expiry_inv self m w → expiry_file_iff self m w.
Proof.
  intros H k Hk. unfold has_expiration. split.
  - destruct (w_fs w !! expire_path self k) as [[e|?]|] eqn:E; try done.
    intros _. apply (H k Hk) in E as [v Hv]. by exists v, e.
  - intros (v & e & Hm). assert (∃ v, m !! k = Some (v, Some e)) as Hm' by (by exists v).
    apply (H k Hk) in Hm'. by rewrite Hm'.
Qed.

Section preservation.
Context (d : string) (Hd : absolute_dir d).
Context (k : string) (Hk : valid_key k) (Hn : is_expiry_name k = false).
Context (m : gmap string entry).

Local Abbreviation self := (attributes d).
Local Abbreviation kp := (key_path (attributes d) k).
Local Abbreviation ep := (expire_path (attributes d) k).

Lemma save_preserves fs clk v e w' :
  expiry_inv self m (World fs clk) →
  exec (save no_fault self k v e) (World fs clk) = (Return tt, w') →
  expiry_inv self (entry_save k v e m) w'.
Proof.
  intros Hinv ->%save_Return k' Hk' e'. cbn [w_fs]. unfold entry_save.
  destruct (decide (k' = k)) as [->|Hne].
  - rewrite lookup_insert_eq. destruct e as [x|].
    + rewrite lookup_insert_eq. split; [intros [= ->]; by exists v|].
      by intros [v' [= _ ->]].
    + rewrite lookup_delete_eq. split; [done | by intros [v' [=]]].
  - rewrite lookup_insert_ne by done.
    assert (expire_path self k' ≠ ep) as H1 by (intros H%expire_path_inj; done).
    assert (expire_path self k' ≠ kp) as H2.
    { intros H. symmetry in H. by apply key_path_not_expire_path in H. }
    destruct e as [x|].
    + rewrite !lookup_insert_ne by done. by apply Hinv.
    + rewrite lookup_delete_ne, lookup_insert_ne by done. by apply Hinv.
Qed.

Lemma cleared_preserves fs clk :
  expiry_inv self m (World fs clk) →
  expiry_inv self (entry_clear k m) (World (delete ep (delete kp fs)) clk).
Proof.
  intros Hinv k' Hk' e'. cbn [w_fs]. unfold entry_clear.
  destruct (decide (k' = k)) as [->|Hne].
  - rewrite !lookup_delete_eq. split; [done | by intros [v' [=]]].
  - assert (expire_path self k' ≠ ep) as H1 by (intros H%expire_path_inj; done).
    assert (expire_path self k' ≠ kp) as H2.
    { intros H. symmetry in H. by apply key_path_not_expire_path in H. }
    rewrite !lookup_delete_ne by done. by apply Hinv.
Qed.

Lemma clear_preserves fs clk w' :
  expiry_inv self m (World fs clk) →
  exec (clear no_fault self k) (World fs clk) = (Return tt, w') →
  expiry_inv self (entry_clear k m) w'.
Proof. intros Hinv ->%clear_Return. by apply cleared_preserves. Qed.

Lemma load_preserves fs clk r w' :
  expiry_inv self m (World fs clk) →
  exec (load no_fault self k) (World fs clk) = (Return r, w') →
  expiry_inv self (entry_load clk k m) w'.
Proof.
  intros Hinv H%load_Return. unfold entry_load.
  destruct (fs !! ep) as [[e|?]|] eqn:Eep.
  - destruct H as (t & Ht & ->). apply (Hinv k Hk) in Eep as [v0 Hm].
    rewrite Hm, Ht. destruct (is_expired clk t); [by apply cleared_preserves | done].
  - by destruct H.
  - destruct H as (_ & ->). destruct (m !! k) as [[v0 [e0|]]|] eqn:Em; try done.
    assert (∃ v, m !! k = Some (v, Some e0)) as H by (by exists v0).
    apply (Hinv k Hk) in H. cbn [w_fs] in H. congruence.
Qed.
End preservation.

Lemma setting_files_filter fs d (l : list string) :
  map (λ f, join d f) (List.filter (λ f, is_file (fs !! join d f)) (omap (child_name d) l))
  = List.filter (is_setting_file fs d) l.
Proof.
  induction l as [|p l IH]; [done|]. cbn [omap list_omap List.filter].
  unfold is_setting_file at 1.
  destruct (child_name d p) as [n|] eqn:E; [|done].
  apply child_name_Some in E as ->. cbn [List.filter].
  destruct (is_file (fs !! join d n)); cbn [map]; by rewrite IH.
Qed.

Lemma setting_files_NoDup fs d : NoDup (setting_files fs d).
Proof.
  unfold setting_files, entries. rewrite setting_files_filter.
  apply NoDup_ListNoDup, List.NoDup_filter, NoDup_ListNoDup, NoDup_fst_map_to_list.
Qed.

Lemma exec_for_each_unlink clk l fs :
  NoDup l → (∀ p, p ∈ l → is_file (fs !! p) = true) →
  ∃ fs', exec (for_each (unlink no_fault) l) (World fs clk) = (Return tt, World fs' clk)
         ∧ ∀ p, fs' !! p = if bool_decide (p ∈ l) then None else fs !! p.
Proof.
  revert fs. induction l as [|a l IH]; intros fs Hnd Hfiles.
  - exists fs. split; [done|]. intros p. by rewrite bool_decide_eq_false_2 by apply not_elem_of_nil.
  - apply NoDup_cons in Hnd as [Ha Hnd]. cbn [for_each].
    unfold unlink at 1. exec_prim.
    pose proof (Hfiles a ltac:(left)) as Hfa.
    destruct (fs !! a) as [[s|?]|] eqn:E; try done. exec_prim.
    destruct (IH (delete a fs) Hnd) as (fs' & Hex & Hlook).
    { intros p Hp. rewrite lookup_delete_ne by (intros ->; done).
      apply Hfiles. by right. }
    exists fs'. split; [done|]. intros p. rewrite Hlook.
    destruct (decide (p = a)) as [->|Hne].
    + rewrite (bool_decide_eq_true_2 (a ∈ a :: l)) by left.
      rewrite lookup_delete_eq. by case_bool_decide.
    + rewrite lookup_delete_ne by done.
      assert (bool_decide (p ∈ a :: l) = bool_decide (p ∈ l)) as ->; [|done].
      apply bool_decide_ext. rewrite elem_of_cons. naive_solver.
Qed.

Lemma clear_all_keys_exec d fs clk m :
  absolute_dir d → fs !! d = Some (Dir m) →
  ∃ fs', exec (clear_all_keys no_fault (attributes d)) (World fs clk)
         = (Return tt, World fs' clk)
         ∧ ∀ p, fs' !! p = if bool_decide (p ∈ setting_files fs d) then None
                           else fs !! p.
Proof.
  intros Hd Hdir. unfold clear_all_keys.
  rewrite exec_bind, (exec_all_setting_files d fs clk m Hdir). cbn beta iota.
  apply exec_for_each_unlink; [apply setting_files_NoDup|].
  intros p (n & -> & _ & _ & H)%elem_of_setting_files; done.
Qed.

Lemma clear_all_keys_Return d fs clk w' :
  absolute_dir d →
  exec (clear_all_keys no_fault (attributes d)) (World fs clk) = (Return tt, w') →
  ∀ p, w_fs w' !! p = if bool_decide (p ∈ setting_files fs d) then None else fs !! p.
Proof.
  intros Hd. destruct (fs !! d) as [[s|m]|] eqn:Edir.
  - unfold clear_all_keys, _all_setting_files, listdir. cbn [attributes dirname].
    rewrite !exec_bind, exec_call by done. cbn [w_fs]. by rewrite Edir.
  - destruct (clear_all_keys_exec d fs clk m Hd Edir) as (fs' & -> & H).
    by intros [= <-].
  - unfold clear_all_keys, _all_setting_files, listdir. cbn [attributes dirname].
    rewrite !exec_bind, exec_call by done. cbn [w_fs]. by rewrite Edir.
Qed.

Lemma clear_all_keys_preserves d (m : gmap string entry) fs clk w' :
  absolute_dir d →
  exec (clear_all_keys no_fault (attributes d)) (World fs clk) = (Return tt, w') →
  expiry_inv (attributes d) (entry_clear_all m) w'.
Proof.
  intros Hd H k Hk e. rewrite (clear_all_keys_Return d fs clk w' Hd H).
  unfold entry_clear_all. rewrite lookup_empty. split; [|by intros [? ?]].
  case_bool_decide as Hin; [done|]. intros Hf. exfalso. apply Hin.
  apply elem_of_setting_files; [done|]. exists ("." +:+ k +:+ ".expires").
  split; [done|]. split; [by apply expiry_name_no_slash, valid_key_no_slash|].
  split; [done|]. unfold expire_path, _key_paths in Hf.
  cbn [snd attributes dirname] in Hf. by rewrite Hf.
Qed.

Lemma dotfile_not_expire_path d k :
  absolute_dir d → valid_key k →
  dotfile (attributes d) ≠ expire_path (attributes d) k.
Proof.
  intros Hd Hk H. unfold expire_path, _key_paths in H.
  cbn [snd attributes dirname dotfile] in H.
  apply join_inj in H; [|done|done|by apply expiry_name_no_slash, valid_key_no_slash].
  rewrite app_cons, app_nil in H. injection H as H.
  assert (ends_with ".expires" "will_settings" = true) as Hends
    by (rewrite H; apply ends_with_app).
  vm_compute in Hends. discriminate Hends.
Qed.

Lemma init_preserves d (m : gmap string entry) fs clk w' :
  absolute_dir d →
  is_file (fs !! d) = false →
  is_dir (fs !! dotfile (attributes d)) = false →
  (fs !! d = None → existsb (λ a, is_file (fs !! a)) (ancestors d) = false) →
  expiry_inv (attributes d) m (World fs clk) →
  exec (__init__ no_fault d) (World fs clk) = (Return (attributes d), w') →
  expiry_inv (attributes d) m w'.
Proof.
  intros Hd Hnf Hmk Hanc Hinv Hex.
  destruct (init_exec d fs clk Hd Hnf Hmk Hanc) as [[_ Hr]|[_ (fs' & Hr & _ & Hsame)]];
    rewrite Hr in Hex; [discriminate Hex|]. injection Hex as <-.
  intros k Hk e. cbn [w_fs]. rewrite Hsame, <- (Hinv k Hk e). cbn [w_fs].
  split; [|by left]. intros [?|(H & _)]; [done|].
  symmetry in H. by apply dotfile_not_expire_path in H.
Qed.

Lemma exec_getsizes l w :
  (exec (map_M (getsize no_fault) l) w).2 = w.
Proof.
  induction l as [|p l IH]; [done|]. cbn [map_M].
  rewrite exec_bind. unfold getsize at 1. rewrite exec_call by done.
  destruct w as [fs clk]. cbn [w_fs w_clock] in *.
  destruct (fs !! p) as [[s|?]|]; [| |done];
    rewrite exec_bind; destruct (exec (map_M _ l) _) as [[sizes|x] w1];
    cbn [snd] in IH; by subst w1.
Qed.

Lemma size_leaves_world fmt d w :
  (exec (size no_fault fmt (attributes d)) w).2 = w.
Proof.
  unfold size. rewrite exec_bind. destruct w as [fs clk].
  destruct (fs !! d) as [[s|m]|] eqn:Edir.
  - unfold _all_setting_files, listdir. cbn [attributes dirname].
    rewrite exec_bind, exec_call by done. cbn [w_fs]. by rewrite Edir.
  - rewrite (exec_all_setting_files d fs clk m Edir). cbn beta iota.
    rewrite exec_bind.
    pose proof (exec_getsizes (setting_files fs d) (World fs clk)) as H.
    destruct (exec (map_M _ _) _) as [[sizes|x] w1]; cbn [snd] in H; by subst w1.
  - unfold _all_setting_files, listdir. cbn [attributes dirname].
    rewrite exec_bind, exec_call by done. cbn [w_fs]. by rewrite Edir.
Qed.

Lemma empty_store_inv d clk m :
  absolute_dir d → expiry_inv (attributes d) ∅ (World {[ d := Dir m ]} clk).
Proof.
  intros Hd k Hk e. cbn [w_fs]. rewrite lookup_empty.
  rewrite lookup_singleton_ne; [split; [done | by intros [? ?]]|].
  intros H. symmetry in H. revert H. unfold expire_path, _key_paths.
  cbn [snd attributes dirname].
  apply join_ne_dir; [done | by apply expiry_name_no_slash, valid_key_no_slash | done].
Qed.

(** ** What the operations leave alone *)

Section footprint.
Context (fault : syscall → option errno).
Context (P : string → Prop).

Lemma touches_ret {A} (a : A) : touches_only P (ret a).
Proof. by intros w. Qed.

Lemma touches_raise {A} x : touches_only P (raise (A:=A) x).
Proof. by intros w. Qed.

Lemma touches_time : touches_only P time_time.
Proof. by intros w. Qed.

Lemma touches_probe p test : touches_only P (probe fault p test).
Proof. intros w. unfold probe. by destruct (fault (SysStat p)). Qed.

Lemma touches_call {A} sc ex
    (sem : gmap string node → errno + A * gmap string node) :
  (∀ fs a fs', sem fs = inr (a, fs') → ∀ p, ¬ P p → fs' !! p = fs !! p) →
  touches_only P (call fault sc ex sem).
Proof.
  intros Hsem w. unfold call. destruct (fault sc); [done|].
  destruct (sem (w_fs w)) as [e|[a fs']] eqn:E; [done|].
  split; [done|]. cbn [final w_fs]. by eapply Hsem.
Qed.

Lemma touches_bind {A B} (m : M A) (k : A → M B) :
  touches_only P m → (∀ a, touches_only P (k a)) → touches_only P (bind m k).
Proof.
  intros Hm Hk w. unfold bind. destruct (Hm w) as [Hc Hf].
  destruct (outcome_of (m w)) as [a|x]; cbn [final]; [|done].
  destruct (Hk a (final (m w))) as [Hc' Hf']. split; [congruence|].
  intros p Hp. by rewrite Hf', Hf.
Qed.

Lemma touches_filter_M {A} (test : A → M bool) l :
  (∀ x, touches_only P (test x)) → touches_only P (filter_M test l).
Proof.
  intros Ht. induction l as [|x l IH]; [apply touches_ret|]. cbn [filter_M].
  apply touches_bind; [done|]. intros keep.
  apply touches_bind; [done|]. intros rest. apply touches_ret.
Qed.

Lemma touches_map_M {A B} (f : A → M B) l :
  (∀ x, touches_only P (f x)) → touches_only P (map_M f l).
Proof.
  intros Hf. induction l as [|x l IH]; [apply touches_ret|]. cbn [map_M].
  apply touches_bind; [done|]. intros y.
  apply touches_bind; [done|]. intros rest. apply touches_ret.
Qed.

Lemma touches_for_each {A} (body : A → M unit) l :
  (∀ x, x ∈ l → touches_only P (body x)) → touches_only P (for_each body l).
Proof.
  induction l as [|x l IH]; intros Hb; [apply touches_ret|]. cbn [for_each].
  apply touches_bind; [apply Hb; left|]. intros _. apply IH.
  intros y Hy. apply Hb. by right.
Qed.

Lemma touches_open_r p : touches_only P (open_r fault p).
Proof.
  apply touches_call. intros fs a fs' H q _.
  destruct (fs !! p) as [[?|?]|]; by simplify_eq.
Qed.

Lemma touches_f_read p : touches_only P (f_read fault p).
Proof.
  apply touches_call. intros fs a fs' H q _.
  destruct (fs !! p) as [[?|?]|]; by simplify_eq.
Qed.

Lemma touches_open_w p : P p → touches_only P (open_w fault p).
Proof.
  intros Hp. apply touches_call. intros fs a fs' H q Hq.
  assert (p ≠ q) by (by intros ->).
  destruct (fs !! p) as [[?|?]|]; [| done | destruct (creatable fs p); [done|]];
    simplify_eq; by rewrite lookup_insert_ne.
Qed.

Lemma touches_open_a p : P p → touches_only P (open_a fault p).
Proof.
  intros Hp. apply touches_call. intros fs a fs' H q Hq.
  assert (p ≠ q) by (by intros ->).
  destruct (fs !! p) as [[?|?]|]; [| done | destruct (creatable fs p); [done|]];
    simplify_eq; [done|]. by rewrite lookup_insert_ne.
Qed.

Lemma touches_f_write p v : P p → touches_only P (f_write fault p v).
Proof.
  intros Hp. apply touches_call. intros fs a fs' H q Hq.
  assert (p ≠ q) by (by intros ->).
  destruct (fs !! p) as [[?|?]|]; simplify_eq. by rewrite lookup_insert_ne.
Qed.

Lemma touches_unlink p : P p → touches_only P (unlink fault p).
Proof.
  intros Hp. apply touches_call. intros fs a fs' H q Hq.
  assert (p ≠ q) by (by intros ->).
  destruct (fs !! p) as [[?|?]|]; simplify_eq. by rewrite lookup_delete_ne.
Qed.

Lemma touches_listdir d : touches_only P (listdir fault d).
Proof.
  apply touches_call. intros fs a fs' H q _.
  destruct (fs !! d) as [[?|?]|]; by simplify_eq.
Qed.

Lemma touches_getsize p : touches_only P (getsize fault p).
Proof.
  apply touches_call. intros fs a fs' H q _.
  destruct (fs !! p) as [[?|?]|]; by simplify_eq.
Qed.

Lemma touches_chmod p mode : P p → touches_only P (chmod fault p mode).
Proof.
  intros Hp. apply touches_call. intros fs a fs' H q Hq.
  assert (p ≠ q) by (by intros ->).
  destruct (fs !! p) as [[?|?]|]; simplify_eq; [done|]. by rewrite lookup_insert_ne.
Qed.

Lemma touches_utime p : touches_only P (utime fault p).
Proof.
  apply touches_call. intros fs a fs' H q _.
  destruct (fs !! p) as [?|]; by simplify_eq.
Qed.

Lemma touches_makedirs d mode :
  P d → (∀ a, a ∈ ancestors d → P a) → touches_only P (makedirs fault d mode).
Proof.
  intros Hp Ha. apply touches_call. intros fs a fs' H q Hq.
  destruct (is_present (fs !! d)); [done|].
  destruct (existsb _ _); [done|]. simplify_eq.
  rewrite lookup_insert_ne by (by intros ->).
  change (foldr (mkdir_missing mode) fs (ancestors d) !! q = fs !! q).
  rewrite lookup_mkdir_missing. destruct (fs !! q); [done|].
  rewrite bool_decide_eq_false_2; [done|]. intros Hin. by apply Hq, Ha.
Qed.
End footprint.

Lemma bind_Return_inv {A B} (m : M A) (k : A → M B) w b :
  outcome_of (bind m k w) = Return b →
  ∃ a, outcome_of (m w) = Return a ∧ outcome_of (k a (final (m w))) = Return b.
Proof.
  unfold bind. destruct (outcome_of (m w)) as [a|x]; [|done]. intros H. by exists a.
Qed.

Lemma touches_bind_post {A B} P (Q : world → A → Prop) (m : M A) (k : A → M B) w :
  (w_clock (final (m w)) = w_clock w
   ∧ ∀ p, ¬ P p → w_fs (final (m w)) !! p = w_fs w !! p) →
  (∀ a, outcome_of (m w) = Return a → Q w a) →
  (∀ a, Q w a → touches_only P (k a)) →
  w_clock (final (bind m k w)) = w_clock w
  ∧ ∀ p, ¬ P p → w_fs (final (bind m k w)) !! p = w_fs w !! p.
Proof.
  intros [Hc Hf] HQ Hk. unfold bind.
  destruct (outcome_of (m w)) as [a|x] eqn:E; cbn [final]; [|done].
  destruct (Hk a (HQ a eq_refl) (final (m w))) as [Hc' Hf']. split; [congruence|].
  intros p Hp. by rewrite Hf', Hf.
Qed.

Lemma filter_M_subset {A} (test : A → M bool) l w kept :
  outcome_of (filter_M test l w) = Return kept → ∀ x, x ∈ kept → x ∈ l.
Proof.
  revert w kept. induction l as [|y l IH]; intros w kept H.
  - injection H as <-. by intros x Hx.
  - cbn [filter_M] in H. apply bind_Return_inv in H as (keep & _ & H).
    apply bind_Return_inv in H as (rest & Hrest & H). injection H as <-.
    intros x Hx. destruct keep.
    + apply elem_of_cons in Hx as [->|Hx]; [left | right; by eapply IH].
    + right. by eapply IH.
Qed.

Lemma all_setting_files_directly_in fault d w files :
  outcome_of (_all_setting_files fault (attributes d) w) = Return files →
  ∀ p, p ∈ files → directly_in d p.
Proof.
  unfold _all_setting_files. cbn [attributes dirname]. intros H.
  apply bind_Return_inv in H as (names & Hnames & H).
  apply bind_Return_inv in H as (kept & Hkept & H). injection H as <-.
  intros p (n & -> & Hn)%list_elem_of_fmap. exists n.
  apply (filter_M_subset _ _ _ _ Hkept) in Hn.
  assert (names = entries (w_fs w) d) as ->.
  { revert Hnames. unfold listdir, call. destruct (fault _); [done|].
    destruct (w_fs w !! d) as [[?|?]|]; try done. by intros [= <-]. }
  apply list_elem_of_omap in Hn as (q & _ & Hq).
  apply child_name_component in Hq as (? & ? & _). done.
Qed.

Lemma touches_all_setting_files fault P self :
  touches_only P (_all_setting_files fault self).
Proof.
  unfold _all_setting_files.
  apply touches_bind; [apply touches_listdir|]. intros names.
  apply touches_bind; [|intros; apply touches_ret].
  apply touches_filter_M. intros f. apply touches_probe.
Qed.

Lemma touches_only_elim {A} P (m : M A) w p :
  touches_only P m → ¬ P p → w_fs (final (m w)) !! p = w_fs w !! p.
Proof. intros H Hp. by apply H. Qed.

Lemma clear_touches fault self k :
  touches_only (own_path self k) (clear fault self k).
Proof.
  assert (own_path self k (key_path self k)) as Hkp by (by left).
  assert (own_path self k (expire_path self k)) as Hep by (by right).
  unfold clear. change (_key_paths self k) with (key_path self k, expire_path self k).
  cbn iota. apply touches_bind; [|intros _].
  - apply touches_bind; [apply touches_probe|]. intros [|];
      [by apply touches_unlink | apply touches_ret].
  - apply touches_bind; [apply touches_probe|]. intros [|];
      [by apply touches_unlink | apply touches_ret].
Qed.

Lemma save_touches fault self k v e :
  touches_only (own_path self k) (save fault self k v e).
Proof.
  assert (own_path self k (key_path self k)) as Hkp by (by left).
  assert (own_path self k (expire_path self k)) as Hep by (by right).
  unfold save. change (_key_paths self k) with (key_path self k, expire_path self k).
  cbn iota. apply touches_bind; [by apply touches_open_w|]. intros _.
  apply touches_bind; [by apply touches_f_write|]. intros _.
  destruct e as [x|].
  - apply touches_bind; [by apply touches_open_w|]. intros _. by apply touches_f_write.
  - apply touches_bind; [apply touches_probe|]. intros [|];
      [by apply touches_unlink | apply touches_ret].
Qed.

Lemma load_touches fault self k :
  touches_only (own_path self k) (load fault self k).
Proof.
  unfold load. change (_key_paths self k) with (key_path self k, expire_path self k).
  cbn iota. apply touches_bind; [apply touches_probe|]. intros has_expiry.
  apply touches_bind.
  - destruct has_expiry; [|apply touches_ret].
    apply touches_bind; [apply touches_open_r|]. intros _.
    apply touches_bind; [apply touches_f_read|]. intros expire_at.
    apply touches_bind; [apply touches_time|]. intros now.
    destruct (py_int expire_at); [apply touches_ret | apply touches_raise].
  - intros [|].
    + apply touches_bind; [apply clear_touches | intros; apply touches_ret].
    + apply touches_bind; [apply touches_probe|]. intros [|]; [|apply touches_ret].
      apply touches_bind; [apply touches_open_r|]. intros _.
      apply touches_bind; [apply touches_f_read|]. intros; apply touches_ret.
Qed.

(** X1.  For every environment: [save], [load] and [clear] change no path but
    the two of their key, however they end. *)
Theorem key_operations_touch_own_files (fault : syscall → option errno)
    (d k v : string) (e : option string) (w : world) (p : string) :
  absolute_dir d → valid_key k →
  p ≠ key_path (attributes d) k → p ≠ expire_path (attributes d) k →
  w_fs (final (save fault (attributes d) k v e w)) !! p = w_fs w !! p
  ∧ w_fs (final (load fault (attributes d) k w)) !! p = w_fs w !! p
  ∧ w_fs (final (clear fault (attributes d) k w)) !! p = w_fs w !! p.
Proof.
  intros _ _ H1 H2.
  assert (¬ own_path (attributes d) k p) as Hp by (by intros [?|?]).
  split; [|split]; (apply (touches_only_elim (own_path (attributes d) k)); [|done]).
  - apply save_touches.
  - apply load_touches.
  - apply clear_touches.
Qed.

Lemma key_operations_touch_own_files_witness :
  let w := World {[ "/srv/will" := Dir 448; "/srv/will/other" := File "kept" ]} 0 in
  w_fs (final (save disk_full (attributes "/srv/will") "token" "abc" (Some "100") w))
    !! "/srv/will/other" = Some (File "kept")
  ∧ w_fs (final (load disk_full (attributes "/srv/will") "token" w))
      !! "/srv/will/other" = Some (File "kept")
  ∧ w_fs (final (clear disk_full (attributes "/srv/will") "token" w))
      !! "/srv/will/other" = Some (File "kept").
Proof.
  intros w.
  apply (key_operations_touch_own_files disk_full "/srv/will" "token" "abc"
           (Some "100") w "/srv/will/other").
  - split; [reflexivity | right; reflexivity].
  - repeat split; done.
  - done.
  - done.
Defined.

(** X2.  For every environment: [_all_setting_files] and [size] change nothing;
    [__init__] changes no path but the directory, the directories above it
    and the marker; [clear_all_keys] changes no path that is not an entry of
    the directory. *)
Theorem store_operations_footprint (fault : syscall → option errno)
    (fmt : Z → string) (d : string) (w : world) (p : string) :
  absolute_dir d →
  w_fs (final (_all_setting_files fault (attributes d) w)) !! p = w_fs w !! p
  ∧ w_fs (final (size fault fmt (attributes d) w)) !! p = w_fs w !! p
  ∧ (p ≠ d → p ∉ ancestors d → p ≠ dotfile (attributes d) →
     w_fs (final (__init__ fault d w)) !! p = w_fs w !! p)
  ∧ (¬ directly_in d p →
     w_fs (final (clear_all_keys fault (attributes d) w)) !! p = w_fs w !! p).
Proof.
  intros _. split; [|split; [|split]].
  - apply (touches_only_elim (λ _, False)); [|by intros []].
    apply touches_all_setting_files.
  - apply (touches_only_elim (λ _, False)); [|by intros []]. unfold size.
    apply touches_bind; [apply touches_all_setting_files|]. intros files.
    apply touches_bind; [|intros; apply touches_ret].
    apply touches_map_M. intros q. apply touches_getsize.
  - intros H1 H2 H3.
    set (P := λ q, q = d ∨ q ∈ ancestors d ∨ q = dotfile (attributes d)).
    assert (¬ P p) as Hp by (intros [?|[?|?]]; done).
    apply (touches_only_elim P); [|done]. unfold __init__. cbn zeta. cbn [attributes dirname dotfile].
    apply touches_bind.
    + apply touches_bind; [apply touches_probe|]. intros [|]; cbn [negb].
      * apply touches_bind; [apply touches_probe|]. intros [|]; cbn [negb];
          [apply touches_ret|].
        apply touches_bind; [apply touches_all_setting_files|]. intros files.
        destruct (bool_decide _); [apply touches_raise | apply touches_ret].
      * apply touches_makedirs; [by left|]. intros a Ha. right. by left.
    + intros _. apply touches_bind; [apply touches_chmod; by left|]. intros _.
      apply touches_bind; [apply touches_open_a; by right; right|]. intros _.
      apply touches_bind; [apply touches_utime | intros; apply touches_ret].
  - intros Hp. unfold clear_all_keys.
    destruct (touches_bind_post (directly_in d)
                (λ w files, ∀ q, q ∈ files → directly_in d q)
                (_all_setting_files fault (attributes d))
                (for_each (unlink fault)) w) as [_ H]; [| | | by apply H].
    + apply touches_all_setting_files.
    + intros files. apply all_setting_files_directly_in.
    + intros files Hfiles. apply touches_for_each. intros q Hq.
      apply touches_unlink. by apply Hfiles.
Qed.

Lemma store_operations_footprint_witness :
  let w := World {[ "/srv/will" := Dir 493; "/srv/will/cache" := Dir 493;
                    "/srv/will/cache/page" := File "kept" ]} 0 in
  w_fs (final (__init__ no_fault "/srv/will" w)) !! "/srv/will/cache/page"
  = Some (File "kept")
  ∧ w_fs (final (clear_all_keys no_fault (attributes "/srv/will") w))
      !! "/srv/will/cache/page" = Some (File "kept").
Proof.
  intros w.
  destruct (store_operations_footprint no_fault (λ _, "") "/srv/will" w
              "/srv/will/cache/page") as (_ & _ & Hinit & Hclear).
  { split; [reflexivity | right; reflexivity]. }
  split.
  - apply Hinit; [done | | done]. vm_compute. intros H.
    repeat (apply elem_of_cons in H as [H|H]; [discriminate H|]).
    by apply elem_of_nil in H.
  - apply Hclear. intros (n & Hs & Hne & H).
    assert (child_name "/srv/will" "/srv/will/cache/page" = Some n) as Hc.
    { rewrite H. apply child_name_join; [|done..].
      split; [reflexivity | right; reflexivity]. }
    vm_compute in Hc. discriminate Hc.
Defined.

(** ** The paths of a key *)

(** X3.  For a valid key both paths are entries of the store directory, named by
    the key and by [.key.expires]; they differ from each other and from the
    directory, and different valid keys have different value paths and
    different expiry paths.  A key that starts with a slash is not confined:
    its value path is the key itself. *)
Theorem key_paths_in_directory (d k k' : string) :
  absolute_dir d → valid_key k → valid_key k' →
  posix_split (key_path (attributes d) k) = (d, k)
  ∧ posix_split (expire_path (attributes d) k) = (d, "." +:+ k +:+ ".expires")
  ∧ key_path (attributes d) k ≠ expire_path (attributes d) k
  ∧ key_path (attributes d) k ≠ d
  ∧ expire_path (attributes d) k ≠ d
  ∧ (key_path (attributes d) k = key_path (attributes d) k' → k = k')
  ∧ (expire_path (attributes d) k = expire_path (attributes d) k' → k = k')
  ∧ (∀ key, starts_with_slash key = true → key_path (attributes d) key = key).
Proof.
  intros Hd Hk Hk'. pose proof (valid_key_no_slash k Hk) as Hs.
  pose proof (expiry_name_no_slash k Hs) as Hes.
  unfold key_path, expire_path, _key_paths. cbn [fst snd attributes dirname].
  split; [by apply split_join|]. split; [by apply split_join|].
  split; [by apply key_paths_ne|].
  split; [apply join_ne_dir; [done.. | by apply valid_key_nonempty]|].
  split; [by apply join_ne_dir|].
  split; [apply join_inj; [done.. | by apply valid_key_no_slash]|].
  split; [apply (expire_path_inj d k k' Hd Hk Hk')|].
  intros key Hkey. unfold join. by rewrite Hkey.
Qed.

Lemma key_paths_in_directory_witness :
  posix_split (key_path (attributes "/srv/will") "token") = ("/srv/will", "token")
  ∧ posix_split (expire_path (attributes "/srv/will") "token")
    = ("/srv/will", ".token.expires")
  ∧ key_path (attributes "/srv/will") "/etc/passwd" = "/etc/passwd".
Proof.
  destruct (key_paths_in_directory "/srv/will" "token" "other")
    as (H1 & H2 & _ & _ & _ & _ & _ & H3).
  - split; [reflexivity | right; reflexivity].
  - repeat split; done.
  - repeat split; done.
  - split; [exact H1|]. split; [exact H2|]. by apply H3.
Defined.

(** ** Listing and clearing the directory *)

(** X4.  [_all_setting_files] in an existing directory returns, changing
    nothing, each regular file that is an entry of the directory, once:
    no subdirectory, and nothing below one.  When the directory is missing
    or is a regular file, it ends in the [OSError] of [os.listdir], and so do
    [clear_all_keys] and [size]. *)
Theorem all_setting_files_lists_regular_files (fmt : Z → string) (d : string)
    (w : world) :
  absolute_dir d →
  (∀ m, w_fs w !! d = Some (Dir m) →
     ∃ files, exec (_all_setting_files no_fault (attributes d)) w = (Return files, w)
              ∧ NoDup files
              ∧ ∀ p, p ∈ files ↔ directly_in d p ∧ is_file (w_fs w !! p) = true)
  ∧ (w_fs w !! d = None →
       exec (_all_setting_files no_fault (attributes d)) w
       = (Raise (OSError ENOENT), w)
       ∧ exec (clear_all_keys no_fault (attributes d)) w = (Raise (OSError ENOENT), w)
       ∧ exec (size no_fault fmt (attributes d)) w = (Raise (OSError ENOENT), w))
  ∧ (is_file (w_fs w !! d) = true →
       exec (_all_setting_files no_fault (attributes d)) w
       = (Raise (OSError ENOTDIR), w)
       ∧ exec (clear_all_keys no_fault (attributes d)) w = (Raise (OSError ENOTDIR), w)
       ∧ exec (size no_fault fmt (attributes d)) w = (Raise (OSError ENOTDIR), w)).
Proof.
  intros Hd. destruct w as [fs clk]. cbn [w_fs]. split.
  - intros m Hdir. exists (setting_files fs d).
    split; [by eapply exec_all_setting_files|]. split; [apply setting_files_NoDup|].
    intros p. rewrite elem_of_setting_files by done. unfold directly_in. split.
    + intros (n & -> & ? & ? & ?). split; [by exists n | done].
    + intros [(n & ? & ? & ->) ?]. by exists n.
  - assert (∀ e, (fs !! d = None ∧ e = ENOENT)
                 ∨ (is_file (fs !! d) = true ∧ e = ENOTDIR) →
              exec (_all_setting_files no_fault (attributes d)) (World fs clk)
              = (Raise (OSError e), World fs clk)) as H.
    { intros e He. unfold _all_setting_files, listdir. cbn [attributes dirname].
      rewrite exec_bind, exec_call by done. cbn [w_fs].
      destruct He as [[-> ->]|[Hf ->]]; [done|].
      by destruct (fs !! d) as [[?|?]|]. }
    split; intros Hcase; unfold clear_all_keys, size.
    + rewrite !exec_bind, !(H ENOENT) by auto. done.
    + rewrite !exec_bind, !(H ENOTDIR) by auto. done.
Qed.

Lemma all_setting_files_lists_regular_files_witness :
  let w := World {[ "/srv/will" := Dir 448; "/srv/will/token" := File "abc";
                    "/srv/will/cache" := Dir 493;
                    "/srv/will/cache/page" := File "x" ]} 0 in
  (∃ files, exec (_all_setting_files no_fault (attributes "/srv/will")) w
            = (Return files, w)
            ∧ NoDup files
            ∧ ∀ p, p ∈ files
                   ↔ directly_in "/srv/will" p ∧ is_file (w_fs w !! p) = true)
  ∧ exec (clear_all_keys no_fault (attributes "/gone")) w
    = (Raise (OSError ENOENT), w).
Proof.
  intros w. split.
  - refine (proj1 (all_setting_files_lists_regular_files (λ _, "") "/srv/will" w _)
              448 _).
    + split; [reflexivity | right; reflexivity].
    + vm_compute; reflexivity.
  - refine (proj1 (proj2 (proj1 (proj2 (all_setting_files_lists_regular_files
                                          (λ _, "") "/gone" w _)) _))).
    + split; [reflexivity | right; reflexivity].
    + vm_compute; reflexivity.
Defined.

Lemma elem_of_setting_files_directly fs d p :
  absolute_dir d →
  p ∈ setting_files fs d ↔ directly_in d p ∧ is_file (fs !! p) = true.
Proof.
  intros Hd. rewrite elem_of_setting_files by done. unfold directly_in. split.
  - intros (n & -> & ? & ? & ?). split; [by exists n | done].
  - intros [(n & ? & ? & ->) ?]. by exists n.
Qed.

(** After [clear_all_keys] no regular file is left in the directory. *)
Lemma setting_files_after_clear d (fs fs' : gmap string node) :
  absolute_dir d →
  (∀ p, fs' !! p = if bool_decide (p ∈ setting_files fs d) then None else fs !! p) →
  setting_files fs' d = [].
Proof.
  intros Hd Hlook. destruct (setting_files fs' d) as [|p l] eqn:E; [done|].
  assert (p ∈ setting_files fs' d) as Hp by (rewrite E; left).
  apply elem_of_setting_files_directly in Hp as [Hin Hf]; [|done].
  rewrite Hlook in Hf. case_bool_decide as Hmem; [done|].
  exfalso. apply Hmem. by apply elem_of_setting_files_directly.
Qed.

Lemma clear_all_keys_world d fs clk m :
  absolute_dir d → fs !! d = Some (Dir m) →
  ∃ fs', exec (clear_all_keys no_fault (attributes d)) (World fs clk)
         = (Return tt, World fs' clk)
         ∧ (∀ p, fs' !! p = if bool_decide (p ∈ setting_files fs d) then None
                            else fs !! p)
         ∧ fs' !! d = Some (Dir m)
         ∧ setting_files fs' d = [].
Proof.
  intros Hd Hdir. destruct (clear_all_keys_exec d fs clk m Hd Hdir) as (fs' & Hex & Hlook).
  exists fs'. split; [done|]. split; [done|]. split.
  - rewrite Hlook. case_bool_decide as Hmem; [|done].
    apply elem_of_setting_files_directly in Hmem as [_ Hf]; [|done].
    by rewrite Hdir in Hf.
  - by eapply setting_files_after_clear.
Qed.

(** X5.  [clear_all_keys] in an existing directory succeeds; it removes every
    regular file that is an entry of the directory, the marker among them,
    and leaves every other path as it was: subdirectories, what is below
    them, and everything outside. *)
Theorem clear_all_keys_removes_regular_files (d : string) (m : Z) (w : world) :
  absolute_dir d → w_fs w !! d = Some (Dir m) →
  ∃ w', exec (clear_all_keys no_fault (attributes d)) w = (Return tt, w')
        ∧ w_clock w' = w_clock w
        ∧ (∀ p, directly_in d p → is_file (w_fs w !! p) = true →
                w_fs w' !! p = None)
        ∧ (∀ p, ¬ (directly_in d p ∧ is_file (w_fs w !! p) = true) →
                w_fs w' !! p = w_fs w !! p)
        ∧ (is_dir (w_fs w !! dotfile (attributes d)) = false →
           w_fs w' !! dotfile (attributes d) = None).
Proof.
  intros Hd Hdir. destruct w as [fs clk]. cbn [w_fs w_clock] in *.
  destruct (clear_all_keys_world d fs clk m Hd Hdir) as (fs' & Hex & Hlook & _ & _).
  exists (World fs' clk). cbn [w_fs w_clock]. split; [done|]. split; [done|].
  assert (∀ p, directly_in d p → is_file (fs !! p) = true → fs' !! p = None) as Hgone.
  { intros p H1 H2. rewrite Hlook, bool_decide_eq_true_2; [done|].
    by apply elem_of_setting_files_directly. }
  assert (∀ p, ¬ (directly_in d p ∧ is_file (fs !! p) = true) → fs' !! p = fs !! p)
    as Hkept.
  { intros p H. rewrite Hlook, bool_decide_eq_false_2; [done|].
    by rewrite elem_of_setting_files_directly. }
  split; [done|]. split; [done|]. intros Hmk.
  destruct (fs !! dotfile (attributes d)) as [[s|?]|] eqn:E; [| done |].
  - apply Hgone; [|by rewrite E]. by exists ".will_settings".
  - rewrite Hkept, E; [done|]. intros [_ H]. by rewrite E in H.
Qed.

Lemma clear_all_keys_removes_regular_files_witness :
  let d := "/srv/will" in
  let w := World {[ "/srv/will" := Dir 448; "/srv/will/.will_settings" := File "";
                    "/srv/will/token" := File "abc";
                    "/srv/will/.token.expires" := File "100";
                    "/srv/will/cache" := Dir 493;
                    "/srv/will/cache/page" := File "x" ]} 0 in
  ∃ w', exec (clear_all_keys no_fault (attributes d)) w = (Return tt, w')
        ∧ w_fs w' !! join d "token" = None
        ∧ w_fs w' !! dotfile (attributes d) = None
        ∧ w_fs w' !! "/srv/will/cache" = w_fs w !! "/srv/will/cache".
Proof.
  intros d w.
  destruct (clear_all_keys_removes_regular_files d 448 w)
    as (w' & Hex & _ & Hgone & Hkept & Hmk).
  - split; [reflexivity | right; reflexivity].
  - vm_compute; reflexivity.
  - exists w'. split; [exact Hex|]. split; [|split].
    + apply Hgone; [|vm_compute; reflexivity].
      exists "token". split; [reflexivity|]. split; reflexivity.
    + apply Hmk. vm_compute; reflexivity.
    + apply Hkept. intros [_ H]. vm_compute in H. discriminate H.
Defined.

Lemma cleared_entry d (fs fs' : gmap string node) p :
  absolute_dir d → directly_in d p → is_dir (fs !! p) = false →
  (∀ q, fs' !! q = if bool_decide (q ∈ setting_files fs d) then None else fs !! q) →
  fs' !! p = None.
Proof.
  intros Hd Hin Hp Hlook. rewrite Hlook. case_bool_decide as Hmem; [reflexivity|].
  destruct (fs !! p) as [[s|?]|] eqn:E; [| discriminate Hp | reflexivity].
  exfalso. apply Hmem. apply elem_of_setting_files_directly; [exact Hd|].
  split; [exact Hin|]. by rewrite E.
Qed.

Lemma key_paths_directly_in d k :
  valid_key k →
  directly_in d (key_path (attributes d) k)
  ∧ directly_in d (expire_path (attributes d) k)
  ∧ directly_in d (dotfile (attributes d)).
Proof.
  intros Hk. split; [|split].
  - exists k. split; [by apply valid_key_no_slash|].
    split; [by apply valid_key_nonempty | reflexivity].
  - exists ("." +:+ k +:+ ".expires").
    split; [by apply expiry_name_no_slash, valid_key_no_slash|].
    split; reflexivity.
  - exists ".will_settings". repeat split.
Qed.

(** X6.  After a [clear_all_keys] that succeeded the directory lists no regular
    file, a second [clear_all_keys] changes nothing, [load] of any valid key
    whose paths are not directories answers that there is no value, and
    [__init__] claims the directory again and puts the marker back. *)
Theorem clear_all_keys_then (d k : string) (m : Z) (w : world) :
  absolute_dir d → valid_key k → w_fs w !! d = Some (Dir m) →
  is_dir (w_fs w !! key_path (attributes d) k) = false →
  is_dir (w_fs w !! expire_path (attributes d) k) = false →
  is_dir (w_fs w !! dotfile (attributes d)) = false →
  ∃ w', exec (clear_all_keys no_fault (attributes d)) w = (Return tt, w')
        ∧ exec (_all_setting_files no_fault (attributes d)) w' = (Return [], w')
        ∧ exec (clear_all_keys no_fault (attributes d)) w' = (Return tt, w')
        ∧ (∀ t, exec (load no_fault (attributes d) k) (set_clock t w')
                = (Return None, set_clock t w'))
        ∧ ∃ w'', exec (__init__ no_fault d) w' = (Return (attributes d), w'')
                 ∧ is_file (w_fs w'' !! dotfile (attributes d)) = true.
Proof.
  intros Hd Hk Hdir Hkp Hep Hmk. destruct w as [fs clk]. cbn [w_fs] in *.
  destruct (clear_all_keys_world d fs clk m Hd Hdir)
    as (fs' & Hex & Hlook & Hdir' & Hempty).
  destruct (key_paths_directly_in d k Hk) as (Dkp & Dep & Dmk).
  pose proof (cleared_entry d fs fs' _ Hd Dkp Hkp Hlook) as Hkp'.
  pose proof (cleared_entry d fs fs' _ Hd Dep Hep Hlook) as Hep'.
  pose proof (cleared_entry d fs fs' _ Hd Dmk Hmk Hlook) as Hmk'.
  assert (exec (_all_setting_files no_fault (attributes d)) (World fs' clk)
          = (Return [], World fs' clk)) as Hlist.
  { rewrite (exec_all_setting_files d fs' clk m Hdir'). by rewrite Hempty. }
  exists (World fs' clk). split; [exact Hex|]. split; [exact Hlist|]. split; [|split].
  - unfold clear_all_keys. rewrite exec_bind, Hlist. reflexivity.
  - intros t. unfold set_clock. cbn [w_fs w_clock].
    rewrite (load_exec_no_expiry d k fs' t Hep'). by rewrite Hkp'.
  - destruct (init_exec d fs' clk Hd) as [[Hf _]|[_ (fs'' & Hr & Hfile & _)]].
    + by rewrite Hdir'.
    + by rewrite Hmk'.
    + intros H. rewrite Hdir' in H. discriminate H.
    + exfalso. destruct Hf as (_ & _ & Hreg).
      apply (setting_files_nonempty fs' d Hd) in Hreg. rewrite Hempty in Hreg.
      simpl in Hreg. lia.
    + exists (World fs'' clk). split; [exact Hr | exact Hfile].
Qed.

Lemma clear_all_keys_then_witness :
  let w := World {[ "/srv/will" := Dir 448; "/srv/will/.will_settings" := File "";
                    "/srv/will/token" := File "abc";
                    "/srv/will/.token.expires" := File "100" ]} 0 in
  ∃ w', exec (clear_all_keys no_fault (attributes "/srv/will")) w = (Return tt, w')
        ∧ exec (load no_fault (attributes "/srv/will") "token") (set_clock 5 w')
          = (Return None, set_clock 5 w').
Proof.
  intros w.
  destruct (clear_all_keys_then "/srv/will" "token" 448 w)
    as (w' & Hex & _ & _ & Hload & _).
  - split; [reflexivity | right; reflexivity].
  - repeat split; done.
  - vm_compute; reflexivity.
  - vm_compute; reflexivity.
  - vm_compute; reflexivity.
  - vm_compute; reflexivity.
  - exists w'. split; [exact Hex | apply Hload].
Defined.

(** ** The size of the store *)

Lemma exec_getsizes_values l fs clk :
  (∀ p, p ∈ l → is_present (fs !! p) = true) →
  exec (map_M (getsize no_fault) l) (World fs clk)
  = (Return (map (λ p, node_size (fs !! p)) l), World fs clk).
Proof.
  induction l as [|p l IH]; intros Hl; [reflexivity|]. cbn [map_M map].
  rewrite exec_bind. unfold getsize at 1. rewrite exec_call by reflexivity.
  cbn [w_fs w_clock]. pose proof (Hl p ltac:(left)) as Hp.
  destruct (fs !! p) as [[s|?]|] eqn:E; [| |discriminate Hp]; cbn beta iota;
    rewrite exec_bind, IH by (intros q Hq; apply Hl; by right);
    cbn beta iota; by rewrite exec_ret.
Qed.

Lemma node_size_nonneg o : 0 ≤ node_size o.
Proof. destruct o as [[s|?]|]; simpl; lia. Qed.

Lemma sum_sizes_bound (fs : gmap string node) l p :
  0 ≤ foldr Z.add 0 (map (λ q, node_size (fs !! q)) l)
  ∧ (p ∈ l → node_size (fs !! p) ≤ foldr Z.add 0 (map (λ q, node_size (fs !! q)) l)).
Proof.
  induction l as [|q l [IH1 IH2]]; cbn [map foldr].
  - split; [lia|]. by intros H%elem_of_nil.
  - pose proof (node_size_nonneg (fs !! q)). split; [lia|].
    intros [->|Hin]%elem_of_cons; [lia|]. specialize (IH2 Hin). lia.
Qed.

Lemma sum_sizes_two (fs : gmap string node) l p q :
  NoDup l → p ∈ l → q ∈ l → p ≠ q →
  node_size (fs !! p) + node_size (fs !! q)
  ≤ foldr Z.add 0 (map (λ r, node_size (fs !! r)) l).
Proof.
  induction l as [|a l IH]; intros Hnd Hp Hq Hne; [by apply elem_of_nil in Hp|].
  apply NoDup_cons in Hnd as [_ Hnd]. cbn [map foldr].
  pose proof (node_size_nonneg (fs !! a)).
  apply elem_of_cons in Hp as [->|Hp]; apply elem_of_cons in Hq as [->|Hq].
  - done.
  - pose proof (proj2 (sum_sizes_bound fs l q) Hq). lia.
  - pose proof (proj2 (sum_sizes_bound fs l p) Hp). lia.
  - specialize (IH Hnd Hp Hq Hne). lia.
Qed.

Lemma exec_size fmt d fs clk m :
  fs !! d = Some (Dir m) →
  exec (size no_fault fmt (attributes d)) (World fs clk)
  = (Return (fmt (total_size fs d)), World fs clk).
Proof.
  intros Hdir. unfold size.
  rewrite exec_bind, (exec_all_setting_files d fs clk m Hdir). cbn beta iota.
  rewrite exec_bind, exec_getsizes_values.
  - cbn beta iota. by rewrite exec_ret.
  - intros p (n & -> & Hn)%list_elem_of_fmap.
    apply list_elem_of_In, filter_In in Hn as [_ Hf].
    by destruct (fs !! join d n) as [[?|?]|].
Qed.

(** X7.  [size] in an existing directory changes nothing and formats the sum of
    the lengths of the regular files that are entries of the directory: the
    sum is not negative, at least the length of each such file, and zero
    when there is none.  Subdirectories do not count. *)
Theorem size_reports_total (fmt : Z → string) (d : string) (m : Z) (w : world) :
  absolute_dir d → w_fs w !! d = Some (Dir m) →
  exec (size no_fault fmt (attributes d)) w
  = (Return (fmt (total_size (w_fs w) d)), w)
  ∧ 0 ≤ total_size (w_fs w) d
  ∧ (∀ p s, directly_in d p → w_fs w !! p = Some (File s) →
            Z.of_nat (String.length s) ≤ total_size (w_fs w) d)
  ∧ ((∀ p, directly_in d p → is_file (w_fs w !! p) = false) →
     total_size (w_fs w) d = 0).
Proof.
  intros Hd Hdir. destruct w as [fs clk]. cbn [w_fs] in *.
  split; [by eapply exec_size|]. unfold total_size.
  split; [apply (sum_sizes_bound fs _ "")|]. split.
  - intros p s Hin Hp.
    assert (p ∈ setting_files fs d) as Hmem.
    { apply elem_of_setting_files_directly; [exact Hd|]. by rewrite Hp. }
    apply (sum_sizes_bound fs) in Hmem. by rewrite Hp in Hmem.
  - intros Hnone. destruct (setting_files fs d) as [|p l] eqn:E; [reflexivity|].
    assert (p ∈ setting_files fs d) as Hmem by (rewrite E; left).
    apply elem_of_setting_files_directly in Hmem as [Hin Hf]; [|exact Hd].
    rewrite (Hnone p Hin) in Hf. discriminate Hf.
Qed.

Lemma size_reports_total_witness :
  let d := "/srv/will" in
  let w := World {[ "/srv/will" := Dir 448; "/srv/will/token" := File "abc";
                    "/srv/will/cache" := Dir 493 ]} 0 in
  3 ≤ total_size (w_fs w) d.
Proof.
  intros d w.
  destruct (size_reports_total (λ _, "") d 448 w) as (_ & _ & H & _).
  - split; [reflexivity | right; reflexivity].
  - vm_compute; reflexivity.
  - apply (H (join d "token") "abc"); [|vm_compute; reflexivity].
    exists "token". split; [reflexivity|]. split; reflexivity.
Defined.

(** X8.  After a [save] that succeeded, [size] counts at least the bytes of the
    value together with those of the expiration, if one was given; after a
    [clear_all_keys] that succeeded, [size] counts nothing. *)
Theorem size_after_save_and_clear (fmt : Z → string) (d k v : string)
    (e : option string) (m : Z) (w : world) :
  absolute_dir d → valid_key k → w_fs w !! d = Some (Dir m) →
  is_dir (w_fs w !! key_path (attributes d) k) = false →
  is_dir (w_fs w !! expire_path (attributes d) k) = false →
  (∃ w' n, exec (save no_fault (attributes d) k v e) w = (Return tt, w')
           ∧ exec (size no_fault fmt (attributes d)) w' = (Return (fmt n), w')
           ∧ Z.of_nat (String.length v)
             + match e with
               | Some x => Z.of_nat (String.length x)
               | None => 0
               end ≤ n)
  ∧ (∃ w', exec (clear_all_keys no_fault (attributes d)) w = (Return tt, w')
           ∧ exec (size no_fault fmt (attributes d)) w' = (Return (fmt 0), w')).
Proof.
  intros Hd Hk Hdir Hkp Hep. destruct w as [fs clk]. cbn [w_fs] in *.
  destruct (key_paths_directly_in d k Hk) as (Dkp & Dep & _).
  pose proof (key_path_ne_expire_path d Hd k Hk) as Hne.
  assert (key_path (attributes d) k ≠ d) as Hkd.
  { apply join_ne_dir; [done | by apply valid_key_no_slash | by apply valid_key_nonempty]. }
  assert (expire_path (attributes d) k ≠ d) as Hed.
  { apply join_ne_dir; [done | by apply expiry_name_no_slash, valid_key_no_slash | done]. }
  split.
  - eexists _, _. split; [by eapply save_exec|].
    set (fs' := match e with Some x => _ | None => _ end).
    assert (fs' !! d = Some (Dir m)) as Hdir'.
    { subst fs'. destruct e as [x|].
      - by rewrite !lookup_insert_ne.
      - by rewrite lookup_delete_ne, lookup_insert_ne. }
    split; [by eapply exec_size|]. unfold total_size.
    assert (key_path (attributes d) k ∈ setting_files fs' d) as Hmk.
    { apply elem_of_setting_files_directly; [exact Hd|]. split; [exact Dkp|].
      subst fs'. destruct e as [x|].
      - by rewrite lookup_insert_ne, lookup_insert_eq.
      - by rewrite lookup_delete_ne, lookup_insert_eq. }
    assert (fs' !! key_path (attributes d) k = Some (File v)) as Hv.
    { subst fs'. destruct e as [x|].
      - by rewrite lookup_insert_ne, lookup_insert_eq.
      - by rewrite lookup_delete_ne, lookup_insert_eq. }
    destruct e as [x|].
    + assert (fs' !! expire_path (attributes d) k = Some (File x)) as Hx
        by (subst fs'; apply lookup_insert_eq).
      assert (expire_path (attributes d) k ∈ setting_files fs' d) as Hme.
      { apply elem_of_setting_files_directly; [exact Hd|]. by rewrite Hx. }
      pose proof (sum_sizes_two fs' _ _ _ (setting_files_NoDup fs' d) Hmk Hme Hne) as H.
      by rewrite Hv, Hx in H.
    + pose proof (proj2 (sum_sizes_bound fs' _ _) Hmk) as H. rewrite Hv in H.
      cbn [node_size] in H. rewrite Z.add_0_r. exact H.
  - destruct (clear_all_keys_world d fs clk m Hd Hdir) as (fs' & Hex & _ & Hdir' & Hempty).
    exists (World fs' clk). split; [exact Hex|].
    rewrite (exec_size fmt d fs' clk m Hdir'). unfold total_size. by rewrite Hempty.
Qed.

Lemma size_after_save_and_clear_witness :
  let d := "/srv/will" in
  let w := World {[ "/srv/will" := Dir 448 ]} 0 in
  ∃ w' n, exec (save no_fault (attributes d) "token" "abc" (Some "100")) w
          = (Return tt, w')
          ∧ exec (size no_fault (λ _, "") (attributes d)) w' = (Return "", w')
          ∧ 3 + 3 ≤ n.
Proof.
  intros d w.
  destruct (size_after_save_and_clear (λ _, "") d "token" "abc" (Some "100") 448 w)
    as [(w' & n & Hsave & Hsize & Hn) _].
  - split; [reflexivity | right; reflexivity].
  - repeat split; done.
  - vm_compute; reflexivity.
  - vm_compute; reflexivity.
  - vm_compute; reflexivity.
  - exists w', n. split; [exact Hsave|]. split; [exact Hsize | exact Hn].
Defined.

(** ** Saving again, clearing, expiring *)

Ltac map_lookups :=
  apply map_eq; intros ?;
  repeat first [ rewrite lookup_insert | rewrite lookup_delete | case_decide ];
  subst; try reflexivity; try congruence.

Section compose.
Context (d : string) (Hd : absolute_dir d).
Context (k : string) (Hk : valid_key k).
Context (fs : gmap string node) (clk : Q) (m : Z).
Context (Hdir : fs !! d = Some (Dir m)).
Context (Hkp : is_dir (fs !! key_path (attributes d) k) = false).
Context (Hep : is_dir (fs !! expire_path (attributes d) k) = false).

Local Abbreviation self := (attributes d).
Local Abbreviation kp := (key_path (attributes d) k).
Local Abbreviation ep := (expire_path (attributes d) k).

Lemma paths_not_dir : kp ≠ ep ∧ kp ≠ d ∧ ep ≠ d.
Proof.
  split; [by apply key_path_ne_expire_path|]. split.
  - apply join_ne_dir; [done | by apply valid_key_no_slash | by apply valid_key_nonempty].
  - apply join_ne_dir; [done | by apply expiry_name_no_slash, valid_key_no_slash | done].
Qed.

Lemma saved_dir v e : saved self k v e fs !! d = Some (Dir m).
Proof.
  destruct paths_not_dir as (Hne & Hkd & Hed). unfold saved. destruct e as [x|].
  - by rewrite !lookup_insert_ne.
  - by rewrite lookup_delete_ne, lookup_insert_ne.
Qed.

Lemma saved_value v e : saved self k v e fs !! kp = Some (File v).
Proof.
  destruct paths_not_dir as (Hne & Hkd & Hed). unfold saved. destruct e as [x|].
  - by rewrite lookup_insert_ne, lookup_insert_eq.
  - by rewrite lookup_delete_ne, lookup_insert_eq.
Qed.

Lemma saved_expiry v e : saved self k v e fs !! ep = File <$> e.
Proof.
  unfold saved. destruct e as [x|]; [apply lookup_insert_eq | apply lookup_delete_eq].
Qed.

Lemma save_exec_saved v e :
  exec (save no_fault self k v e) (World fs clk)
  = (Return tt, World (saved self k v e fs) clk).
Proof. by eapply save_exec. Qed.
End compose.

(** X9.  When the store directory exists and the two paths of a valid key are not
    directories, a [save] followed by a second [save] of the same key leaves
    the world the second [save] alone leaves: the value is replaced, not
    appended to, and the expiration is that of the second [save]. *)
Theorem save_last_write_wins (d k v1 v2 : string) (e1 e2 : option string)
    (m : Z) (w : world) :
  absolute_dir d → valid_key k → w_fs w !! d = Some (Dir m) →
  is_dir (w_fs w !! key_path (attributes d) k) = false →
  is_dir (w_fs w !! expire_path (attributes d) k) = false →
  exec (save no_fault (attributes d) k v1 e1 >> save no_fault (attributes d) k v2 e2) w
  = exec (save no_fault (attributes d) k v2 e2) w
  ∧ ∃ w', exec (save no_fault (attributes d) k v2 e2) w = (Return tt, w')
          ∧ w_fs w' !! key_path (attributes d) k = Some (File v2)
          ∧ w_fs w' !! expire_path (attributes d) k = File <$> e2.
Proof.
  intros Hd Hk Hdir Hkp Hep. destruct w as [fs clk]. cbn [w_fs] in *.
  rewrite exec_bind, (save_exec_saved d Hd k Hk fs clk m Hdir Hkp Hep v1 e1).
  cbn beta iota.
  rewrite (save_exec_saved d Hd k Hk (saved (attributes d) k v1 e1 fs) clk m).
  2:{ by apply saved_dir. }
  2:{ by erewrite saved_value. }
  2:{ erewrite saved_expiry by done. by destruct e1. }
  rewrite (save_exec_saved d Hd k Hk fs clk m Hdir Hkp Hep v2 e2). split.
  - pose proof (key_path_ne_expire_path d Hd k Hk) as Hne.
    f_equal. f_equal. unfold saved. destruct e1, e2; map_lookups.
  - eexists. split; [reflexivity|]. cbn [w_fs].
    split; [by eapply saved_value | by eapply saved_expiry].
Qed.

Lemma save_last_write_wins_witness :
  let d := "/srv/will" in
  let w := World {[ "/srv/will" := Dir 448 ]} 0 in
  ∃ w', exec (save no_fault (attributes d) "token" "a long value" (Some "100") >>
              save no_fault (attributes d) "token" "b" None) w = (Return tt, w')
        ∧ w_fs w' !! key_path (attributes d) "token" = Some (File "b")
        ∧ w_fs w' !! expire_path (attributes d) "token" = None.
Proof.
  intros d w.
  destruct (save_last_write_wins d "token" "a long value" "b" (Some "100") None 448 w)
    as (Heq & w' & Hex & Hv & He).
  - split; [reflexivity | right; reflexivity].
  - repeat split; done.
  - vm_compute; reflexivity.
  - vm_compute; reflexivity.
  - vm_compute; reflexivity.
  - exists w'. split; [by rewrite Heq|]. split; [exact Hv | exact He].
Defined.

(** X10.  When the store directory exists and the two paths of a valid key
    are not directories, a [clear] after a [save] leaves the world a [clear]
    alone leaves, and a [load] after the two answers that there is no
    value. *)
Theorem save_then_clear (d k v : string) (e : option string) (m : Z) (w : world) :
  absolute_dir d → valid_key k → w_fs w !! d = Some (Dir m) →
  is_dir (w_fs w !! key_path (attributes d) k) = false →
  is_dir (w_fs w !! expire_path (attributes d) k) = false →
  exec (save no_fault (attributes d) k v e >> clear no_fault (attributes d) k) w
  = exec (clear no_fault (attributes d) k) w
  ∧ exec (save no_fault (attributes d) k v e >> clear no_fault (attributes d) k >>
          load no_fault (attributes d) k) w
    = (Return None, cleared (attributes d) k w).
Proof.
  intros Hd Hk Hdir Hkp Hep. destruct w as [fs clk]. cbn [w_fs] in *.
  assert (exec (save no_fault (attributes d) k v e >> clear no_fault (attributes d) k)
               (World fs clk)
          = (Return tt, cleared (attributes d) k (World fs clk))) as H.
  { rewrite exec_bind, (save_exec_saved d Hd k Hk fs clk m Hdir Hkp Hep v e).
    cbn beta iota. rewrite (clear_exec d Hd k Hk).
    2:{ by erewrite saved_value. }
    2:{ erewrite saved_expiry by done. by destruct e. }
    pose proof (key_path_ne_expire_path d Hd k Hk) as Hne.
    unfold cleared. cbn [w_fs w_clock]. f_equal. f_equal.
    unfold saved. destruct e; map_lookups. }
  split.
  - rewrite H. symmetry. by apply clear_exec.
  - rewrite exec_bind, (save_exec_saved d Hd k Hk fs clk m Hdir Hkp Hep v e).
    cbn beta iota. rewrite exec_bind.
    rewrite exec_bind, (save_exec_saved d Hd k Hk fs clk m Hdir Hkp Hep v e) in H.
    cbn beta iota in H. rewrite H. cbn beta iota. unfold cleared. cbn [w_fs w_clock].
    rewrite load_exec_no_expiry by apply lookup_delete_eq.
    rewrite lookup_delete_ne by (symmetry; by apply key_path_ne_expire_path).
    by rewrite lookup_delete_eq.
Qed.

Lemma save_then_clear_witness :
  let d := "/srv/will" in
  let w := World {[ "/srv/will" := Dir 448; "/srv/will/other" := File "kept" ]} 0 in
  exec (save no_fault (attributes d) "token" "abc" (Some "100") >>
        clear no_fault (attributes d) "token" >>
        load no_fault (attributes d) "token") w
  = (Return None, cleared (attributes d) "token" w).
Proof.
  intros d w.
  refine (proj2 (save_then_clear d "token" "abc" (Some "100") 448 w _ _ _ _ _)).
  - split; [reflexivity | right; reflexivity].
  - repeat split; done.
  - vm_compute; reflexivity.
  - vm_compute; reflexivity.
  - vm_compute; reflexivity.
Defined.

(** X11.  A [save] with an expiration that [int] reads as [t]: a [load] at a time
    up to and including [t] returns the value and changes nothing; a [load]
    at any later time returns nothing and removes both files. *)
Theorem save_with_expiry_then_load (d k v x : string) (t : Z) (m : Z) (w : world) :
  absolute_dir d → valid_key k → w_fs w !! d = Some (Dir m) →
  is_dir (w_fs w !! key_path (attributes d) k) = false →
  is_dir (w_fs w !! expire_path (attributes d) k) = false →
  py_int x = Some t →
  ∃ w', exec (save no_fault (attributes d) k v (Some x)) w = (Return tt, w')
        ∧ (∀ now, (now <= inject_Z t)%Q →
                  exec (load no_fault (attributes d) k) (set_clock now w')
                  = (Return (Some v), set_clock now w'))
        ∧ (∀ now, (inject_Z t < now)%Q →
                  exec (load no_fault (attributes d) k) (set_clock now w')
                  = (Return None, cleared (attributes d) k (set_clock now w'))
                  ∧ w_fs (cleared (attributes d) k (set_clock now w'))
                      !! key_path (attributes d) k = None
                  ∧ w_fs (cleared (attributes d) k (set_clock now w'))
                      !! expire_path (attributes d) k = None).
Proof.
  intros Hd Hk Hdir Hkp Hep Ht. destruct w as [fs clk]. cbn [w_fs] in *.
  exists (World (saved (attributes d) k v (Some x) fs) clk).
  split; [by eapply save_exec_saved|].
  pose proof (saved_value d Hd k Hk fs v (Some x)) as Hv.
  pose proof (saved_expiry d k fs v (Some x)) as Hx.
  change (File <$> Some x) with (Some (File x)) in Hx.
  assert (∀ now, exec (load no_fault (attributes d) k)
                   (World (saved (attributes d) k v (Some x) fs) now)
                 = if is_expired now t
                   then (Return None,
                         cleared (attributes d) k
                           (World (saved (attributes d) k v (Some x) fs) now))
                   else (Return (Some v),
                         World (saved (attributes d) k v (Some x) fs) now)) as Hload.
  { intros now. rewrite (load_exec_expiry d Hd k Hk _ now x t Hx Ht) by (by rewrite Hv).
    by rewrite Hv. }
  split.
  - intros now Hnow. unfold set_clock. cbn [w_fs w_clock]. rewrite Hload.
    destruct (is_expired now t) eqn:E; [|done].
    apply is_expired_lt in E. by apply Qlt_not_le in E.
  - intros now Hnow. unfold set_clock. cbn [w_fs w_clock]. rewrite Hload.
    rewrite (proj2 (is_expired_lt now t) Hnow). split; [done|].
    unfold cleared. cbn [w_fs]. split.
    + rewrite lookup_delete_ne by (symmetry; by apply key_path_ne_expire_path).
      apply lookup_delete_eq.
    + apply lookup_delete_eq.
Qed.

Lemma save_with_expiry_then_load_witness :
  let d := "/srv/will" in
  let w := World {[ "/srv/will" := Dir 448 ]} 0 in
  ∃ w', exec (save no_fault (attributes d) "token" "abc" (Some "100")) w
        = (Return tt, w')
        ∧ exec (load no_fault (attributes d) "token") (set_clock 100 w')
          = (Return (Some "abc"), set_clock 100 w')
        ∧ exec (load no_fault (attributes d) "token") (set_clock (201 # 2) w')
          = (Return None, cleared (attributes d) "token" (set_clock (201 # 2) w')).
Proof.
  intros d w.
  destruct (save_with_expiry_then_load d "token" "abc" "100" 100 448 w)
    as (w' & Hsave & Hlive & Hdead).
  - split; [reflexivity | right; reflexivity].
  - repeat split; done.
  - vm_compute; reflexivity.
  - vm_compute; reflexivity.
  - vm_compute; reflexivity.
  - vm_compute; reflexivity.
  - exists w'. split; [exact Hsave|]. split.
    + apply Hlive. apply Qle_refl.
    + apply Hdead. reflexivity.
Defined.

(** ** How load and save end, case by case *)

Lemma exec_call_fault {A} fault sc ex
    (sem : gmap string node → errno + A * gmap string node) w e :
  fault sc = Some e → exec (call fault sc ex sem) w = (Raise (ex e), w).
Proof. intros H. unfold exec, call. by rewrite H. Qed.

Lemma clear_exec_cases d k fs clk :
  absolute_dir d → valid_key k →
  exec (clear no_fault (attributes d) k) (World fs clk)
  = if is_dir (fs !! key_path (attributes d) k)
    then (Raise (OSError EISDIR), World fs clk)
    else if is_dir (fs !! expire_path (attributes d) k)
    then (Raise (OSError EISDIR), World (delete (key_path (attributes d) k) fs) clk)
    else (Return tt, World (delete (expire_path (attributes d) k)
                              (delete (key_path (attributes d) k) fs)) clk).
Proof.
  intros Hd Hk. pose proof (key_path_ne_expire_path d Hd k Hk) as Hne.
  unfold clear.
  change (_key_paths (attributes d) k)
    with (key_path (attributes d) k, expire_path (attributes d) k). cbn iota.
  rewrite exec_bind, exec_unlink_cases.
  destruct (is_dir (fs !! key_path (attributes d) k)); [reflexivity|].
  cbn beta iota. rewrite exec_unlink_cases. by rewrite lookup_delete_ne.
Qed.

Lemma load_exec_cases (d k : string) (w : world) :
  absolute_dir d → valid_key k →
  let kp := key_path (attributes d) k in
  let ep := expire_path (attributes d) k in
  let answer :=
    match w_fs w !! kp with
    | Some (File v) => (Return (Some v), w)
    | Some (Dir _) => (Raise (IOError EISDIR), w)
    | None => (Return None, w)
    end in
  exec (load no_fault (attributes d) k) w
  = match w_fs w !! ep with
    | None => answer
    | Some (Dir _) => (Raise (IOError EISDIR), w)
    | Some (File e) =>
        match py_int e with
        | None => (Raise (ValueError e), w)
        | Some t =>
            if is_expired (w_clock w) t then
              if is_dir (w_fs w !! kp) then (Raise (OSError EISDIR), w)
              else (Return None, cleared (attributes d) k w)
            else answer
        end
    end.
Proof.
  intros Hd Hk. cbn zeta. destruct w as [fs clk]. cbn [w_fs w_clock] in *.
  set (kp := key_path (attributes d) k). set (ep := expire_path (attributes d) k).
  destruct (fs !! ep) as [[e|?]|] eqn:Eep.
  - destruct (py_int e) as [t|] eqn:Et; [|by apply load_exec_bad_expiry].
    destruct (is_dir (fs !! kp)) eqn:Ekp.
    + (* the value path is a directory *)
      unfold load. change (_key_paths (attributes d) k) with (kp, ep). cbn iota.
      unfold path_exists at 1. unfold open_r at 1. unfold f_read at 1.
      exec_prim. rewrite Eep. cbn [is_present]. exec_prim. rewrite Eep. exec_prim.
      rewrite Eep. exec_prim. rewrite Et. exec_prim.
      destruct (is_expired clk t).
      * exec_prim. rewrite (clear_exec_cases d k fs clk Hd Hk). fold kp. by rewrite Ekp.
      * unfold path_exists, open_r. exec_prim.
        destruct (fs !! kp) as [[?|?]|] eqn:E; try discriminate Ekp.
        cbn [is_present]. exec_prim. by rewrite E.
    + rewrite (load_exec_expiry d Hd k Hk fs clk e t Eep Et Ekp). fold kp.
      destruct (is_expired clk t); [reflexivity|].
      by destruct (fs !! kp) as [[?|?]|].
  - unfold load. change (_key_paths (attributes d) k) with (kp, ep). cbn iota.
    unfold path_exists at 1. unfold open_r at 1.
    exec_prim. rewrite Eep. cbn [is_present]. exec_prim. by rewrite Eep.
  - by apply load_exec_no_expiry.
Qed.

(** X12.  What [load] does for a valid key, by the state of its two paths: with
    no expiry file it answers from the value file; an expiry file that is a
    directory, or a value path that is one, ends it in the error of the
    call that met it; an expiry file [int] rejects ends it in [ValueError];
    otherwise it compares the clock with the timestamp, and clears the key
    or answers from the value file. *)
Theorem load_by_cases (d k : string) (w : world) :
  absolute_dir d → valid_key k →
  let kp := key_path (attributes d) k in
  let ep := expire_path (attributes d) k in
  let answer :=
    match w_fs w !! kp with
    | Some (File v) => (Return (Some v), w)
    | Some (Dir _) => (Raise (IOError EISDIR), w)
    | None => (Return None, w)
    end in
  exec (load no_fault (attributes d) k) w
  = match w_fs w !! ep with
    | None => answer
    | Some (Dir _) => (Raise (IOError EISDIR), w)
    | Some (File e) =>
        match py_int e with
        | None => (Raise (ValueError e), w)
        | Some t =>
            if is_expired (w_clock w) t then
              if is_dir (w_fs w !! kp) then (Raise (OSError EISDIR), w)
              else (Return None, cleared (attributes d) k w)
            else answer
        end
    end.
Proof. apply load_exec_cases. Qed.

Lemma load_by_cases_witness :
  let d := "/srv/will" in
  let w := World {[ "/srv/will" := Dir 448; "/srv/will/token" := Dir 493 ]} 0 in
  exec (load no_fault (attributes d) "token") w = (Raise (IOError EISDIR), w).
Proof.
  intros d w. rewrite (load_by_cases d "token" w).
  - vm_compute; reflexivity.
  - split; [reflexivity | right; reflexivity].
  - repeat split; done.
Defined.

(** X13.  A [load] that returns a value returns the content of the value file and
    leaves the world as it is; a [load] that returns nothing either found no
    value file and changed nothing, or found the key expired and cleared it. *)
Theorem load_answers_from_value_file (d k : string) (r : option string)
    (w w' : world) :
  absolute_dir d → valid_key k →
  exec (load no_fault (attributes d) k) w = (Return r, w') →
  match r with
  | Some v => w' = w ∧ w_fs w !! key_path (attributes d) k = Some (File v)
  | None =>
      (w' = w ∧ w_fs w !! key_path (attributes d) k = None)
      ∨ (w' = cleared (attributes d) k w
         ∧ ∃ e t, w_fs w !! expire_path (attributes d) k = Some (File e)
                  ∧ py_int e = Some t ∧ (inject_Z t < w_clock w)%Q)
  end.
Proof.
  intros Hd Hk. rewrite (load_exec_cases d k w Hd Hk). cbn zeta.
  destruct (w_fs w !! expire_path (attributes d) k) as [[e|?]|] eqn:Eep; [| done |].
  - destruct (py_int e) as [t|] eqn:Et; [|done].
    destruct (is_expired (w_clock w) t) eqn:Ex.
    + destruct (is_dir _); [done|]. intros [= <- <-]. right. split; [done|].
      exists e, t. split; [done|]. split; [done|]. by apply is_expired_lt.
    + destruct (w_fs w !! key_path (attributes d) k) as [[v|?]|]; [| done |];
        intros [= <- <-]; [done | by left].
  - destruct (w_fs w !! key_path (attributes d) k) as [[v|?]|]; [| done |];
      intros [= <- <-]; [done | by left].
Qed.

Lemma load_answers_from_value_file_witness :
  let d := "/srv/will" in
  let w := World {[ "/srv/will" := Dir 448; "/srv/will/token" := File "abc" ]} 0 in
  w = w ∧ w_fs w !! key_path (attributes d) "token" = Some (File "abc").
Proof.
  intros d w.
  apply (load_answers_from_value_file d "token" (Some "abc") w w).
  - split; [reflexivity | right; reflexivity].
  - repeat split; done.
  - vm_compute; reflexivity.
Defined.

(** ** Keys do not disturb each other *)

Lemma load_depends_on_own_files d k fs1 fs2 clk :
  absolute_dir d → valid_key k →
  fs1 !! key_path (attributes d) k = fs2 !! key_path (attributes d) k →
  fs1 !! expire_path (attributes d) k = fs2 !! expire_path (attributes d) k →
  (exec (load no_fault (attributes d) k) (World fs1 clk)).1
  = (exec (load no_fault (attributes d) k) (World fs2 clk)).1.
Proof.
  intros Hd Hk H1 H2. rewrite !(load_exec_cases d k _ Hd Hk). cbn zeta.
  cbn [w_fs w_clock]. rewrite H1, H2.
  destruct (fs2 !! expire_path (attributes d) k) as [[e|?]|]; [| done |].
  - destruct (py_int e) as [t|]; [|done]. destruct (is_expired clk t).
    + by destruct (is_dir _).
    + by destruct (fs2 !! key_path (attributes d) k) as [[?|?]|].
  - by destruct (fs2 !! key_path (attributes d) k) as [[?|?]|].
Qed.

Lemma other_key_paths d k k' :
  absolute_dir d → valid_key k → valid_key k' → k ≠ k' →
  is_expiry_name k = false → is_expiry_name k' = false →
  ¬ own_path (attributes d) k (key_path (attributes d) k')
  ∧ ¬ own_path (attributes d) k (expire_path (attributes d) k').
Proof.
  intros Hd Hk Hk' Hne Hn Hn'. split; intros [H|H].
  - apply join_inj in H; [congruence | done | by apply valid_key_no_slash..].
  - by apply key_path_not_expire_path in H.
  - symmetry in H. by apply key_path_not_expire_path in H.
  - apply expire_path_inj in H; [congruence | done..].
Qed.

(** X14.  Two different valid keys, neither of them the name of an expiry file:
    whatever [save], [clear] or [load] does to one of them, in whatever
    environment and however it ends, a [load] of the other one that follows
    ends as it would have ended before. *)
Theorem other_keys_undisturbed (fault : syscall → option errno)
    (d k k' v : string) (e : option string) (w : world) :
  absolute_dir d → valid_key k → valid_key k' → k ≠ k' →
  is_expiry_name k = false → is_expiry_name k' = false →
  (exec (load no_fault (attributes d) k') (final (save fault (attributes d) k v e w))).1
  = (exec (load no_fault (attributes d) k') w).1
  ∧ (exec (load no_fault (attributes d) k') (final (clear fault (attributes d) k w))).1
    = (exec (load no_fault (attributes d) k') w).1
  ∧ (exec (load no_fault (attributes d) k') (final (load fault (attributes d) k w))).1
    = (exec (load no_fault (attributes d) k') w).1.
Proof.
  intros Hd Hk Hk' Hne Hn Hn'.
  destruct (other_key_paths d k k' Hd Hk Hk' Hne Hn Hn') as [Hkp Hep].
  assert (∀ A (op : M A), touches_only (own_path (attributes d) k) op →
            (exec (load no_fault (attributes d) k') (final (op w))).1
            = (exec (load no_fault (attributes d) k') w).1) as H.
  { intros A op Hop. destruct (Hop w) as [Hc Hf].
    destruct (final (op w)) as [fs1 clk1]. destruct w as [fs clk].
    cbn [w_fs w_clock] in *. subst clk1.
    apply load_depends_on_own_files; [done | done | by apply Hf..]. }
  split; [|split]; apply H.
  - apply save_touches.
  - apply clear_touches.
  - apply load_touches.
Qed.

Lemma other_keys_undisturbed_witness :
  let d := "/srv/will" in
  let w := World {[ "/srv/will" := Dir 448; "/srv/will/other" := File "kept" ]} 0 in
  (exec (load no_fault (attributes d) "other")
        (final (save no_fault (attributes d) "token" "abc" (Some "100") w))).1
  = Return (Some "kept").
Proof.
  intros d w.
  refine (eq_trans (proj1 (other_keys_undisturbed no_fault d "token" "other" "abc"
                             (Some "100") w _ _ _ _ _ _)) _).
  - split; [reflexivity | right; reflexivity].
  - repeat split; done.
  - repeat split; done.
  - done.
  - reflexivity.
  - reflexivity.
  - vm_compute; reflexivity.
Defined.

(** ** When save cannot finish *)

(** X15.  [save] for a valid key, when it fails.  A value path that is a
    directory, or a missing store directory, ends it in [IOError] with
    nothing changed.  An expiry path that is a directory ends it in the error
    of the call that met it after the value has been written: the new value
    is on disk, with whatever was at the expiry path before. *)
Theorem save_failures (d k v : string) (e : option string) (w : world) :
  absolute_dir d → valid_key k →
  let kp := key_path (attributes d) k in
  let ep := expire_path (attributes d) k in
  (is_dir (w_fs w !! kp) = true →
     exec (save no_fault (attributes d) k v e) w = (Raise (IOError EISDIR), w))
  ∧ (w_fs w !! d = None → w_fs w !! kp = None →
     exec (save no_fault (attributes d) k v e) w = (Raise (IOError ENOENT), w))
  ∧ (is_file (w_fs w !! kp) = true
     ∨ (w_fs w !! kp = None ∧ is_dir (w_fs w !! d) = true) →
     is_dir (w_fs w !! ep) = true →
     exec (save no_fault (attributes d) k v e) w
     = (Raise (match e with
               | Some _ => IOError EISDIR
               | None => OSError EISDIR
               end),
        World (<[kp := File v]> (w_fs w)) (w_clock w))).
Proof.
  intros Hd Hk. cbn zeta. destruct w as [fs clk]. cbn [w_fs w_clock].
  pose proof (key_path_ne_expire_path d Hd k Hk) as Hne.
  set (kp := key_path (attributes d) k) in *.
  set (ep := expire_path (attributes d) k) in *.
  assert (exec (save no_fault (attributes d) k v e) (World fs clk)
          = match open_error fs kp with
            | Some err => (Raise (IOError err), World fs clk)
            | None =>
                match e with
                | Some x =>
                    exec (open_w no_fault ep >> f_write no_fault ep x)
                      (World (<[kp := File v]> fs) clk)
                | None =>
                    exec (let! present := path_exists no_fault ep in
                          if present then unlink no_fault ep else ret tt)
                      (World (<[kp := File v]> fs) clk)
                end
            end) as Hsave.
  { unfold save. change (_key_paths (attributes d) k) with (kp, ep). cbn iota.
    rewrite exec_open_write_cases. by destruct (open_error fs kp), e. }
  rewrite Hsave. unfold open_error. split; [|split].
  - intros H. by destruct (fs !! kp) as [[?|?]|].
  - intros Hdir ->. unfold creatable, kp, key_path, _key_paths.
    cbn [fst attributes dirname].
    by rewrite dirname_join, Hdir by (done || by apply valid_key_no_slash).
  - intros Hw Hep.
    assert (match fs !! kp with
            | Some (File _) => None
            | Some (Dir _) => Some EISDIR
            | None => creatable fs kp
            end = None) as ->.
    { destruct Hw as [Hf|[-> Hdir]]; [by destruct (fs !! kp) as [[?|?]|]|].
      unfold creatable, kp, key_path, _key_paths. cbn [fst attributes dirname].
      rewrite dirname_join by (done || by apply valid_key_no_slash).
      by destruct (fs !! d) as [[?|?]|]. }
    destruct e as [x|].
    + rewrite exec_open_write_cases'. unfold open_error.
      rewrite lookup_insert_ne by done. by destruct (fs !! ep) as [[?|?]|].
    + rewrite exec_unlink_cases, lookup_insert_ne by done. by rewrite Hep.
Qed.

Lemma save_failures_witness :
  let d := "/srv/will" in
  let w := World {[ "/srv/will" := Dir 448; "/srv/will/token" := File "old";
                    "/srv/will/.token.expires" := Dir 493 ]} 0 in
  exec (save no_fault (attributes d) "token" "new" None) w
  = (Raise (OSError EISDIR),
     World (<[key_path (attributes d) "token" := File "new"]> (w_fs w)) (w_clock w)).
Proof.
  intros d w.
  refine (proj2 (proj2 (save_failures d "token" "new" None w _ _)) _ _).
  - split; [reflexivity | right; reflexivity].
  - repeat split; done.
  - left. vm_compute; reflexivity.
  - vm_compute; reflexivity.
Defined.

(** X16.  A [save] whose write fails after the file was opened, in any
    environment: it ends in the [IOError] of the write and leaves the value
    file empty, the value that was there is lost, and a [load] that follows
    in a sound environment returns the empty string when the key has no
    expiry file. *)
Theorem failed_write_loses_value (fault : syscall → option errno)
    (d k v old : string) (e : option string) (err : errno) (w : world) :
  absolute_dir d → valid_key k →
  w_fs w !! key_path (attributes d) k = Some (File old) →
  fault (SysOpen (key_path (attributes d) k) Mode_w) = None →
  fault (SysWrite (key_path (attributes d) k)) = Some err →
  let w' := World (<[key_path (attributes d) k := File ""]> (w_fs w)) (w_clock w) in
  exec (save fault (attributes d) k v e) w = (Raise (IOError err), w')
  ∧ (w_fs w !! expire_path (attributes d) k = None →
     exec (load no_fault (attributes d) k) w' = (Return (Some ""), w')).
Proof.
  intros Hd Hk Hold Hopen Hwrite. cbn zeta. destruct w as [fs clk].
  cbn [w_fs w_clock] in *. split.
  - unfold save.
    change (_key_paths (attributes d) k)
      with (key_path (attributes d) k, expire_path (attributes d) k). cbn iota.
    unfold open_w at 1. unfold f_write at 1.
    rewrite exec_bind, exec_call by done. cbn [w_fs w_clock]. rewrite Hold.
    cbn beta iota. by rewrite exec_bind, (exec_call_fault _ _ _ _ _ err).
  - intros Hep. pose proof (key_path_ne_expire_path d Hd k Hk) as Hne.
    rewrite load_exec_no_expiry by (by rewrite lookup_insert_ne).
    by rewrite lookup_insert_eq.
Qed.

Lemma failed_write_loses_value_witness :
  let d := "/srv/will" in
  let w := World {[ "/srv/will" := Dir 448; "/srv/will/token" := File "old" ]} 0 in
  let w' := World (<[key_path (attributes d) "token" := File ""]> (w_fs w)) 0 in
  exec (save disk_full (attributes d) "token" "new" None) w
  = (Raise (IOError ENOSPC), w')
  ∧ exec (load no_fault (attributes d) "token") w' = (Return (Some ""), w').
Proof.
  intros d w w'.
  destruct (failed_write_loses_value disk_full d "token" "new" "old" None ENOSPC w)
    as [H1 H2].
  - split; [reflexivity | right; reflexivity].
  - repeat split; done.
  - vm_compute; reflexivity.
  - reflexivity.
  - reflexivity.
  - split; [exact H1|]. apply H2. vm_compute; reflexivity.
Defined.

(** ** Claiming a directory twice *)

Lemma exec_claim_explicit d fs clk m :
  absolute_dir d → fs !! d = Some (Dir m) →
  is_dir (fs !! dotfile (attributes d)) = false →
  exec (chmod no_fault d 448 >>
        open_a no_fault (dotfile (attributes d)) >>
        utime no_fault (dotfile (attributes d)) >>
        ret (attributes d)) (World fs clk)
  = (Return (attributes d),
     World (match fs !! dotfile (attributes d) with
            | Some _ => <[d := Dir 448]> fs
            | None => <[dotfile (attributes d) := File ""]> (<[d := Dir 448]> fs)
            end) clk).
Proof.
  intros Hd Hdir Hmk. set (mk := dotfile (attributes d)) in *.
  assert (mk ≠ d) as Hne by (by apply join_ne_dir).
  unfold chmod, open_a, utime. exec_prim. rewrite Hdir. exec_prim.
  rewrite lookup_insert_ne by done.
  destruct (fs !! mk) as [[s|?]|] eqn:E; [| done |].
  - exec_prim. by rewrite lookup_insert_ne, E by done.
  - unfold creatable. unfold mk at 1. cbn [attributes dotfile].
    rewrite dirname_join, lookup_insert_eq by done. exec_prim.
    by rewrite lookup_insert_eq.
Qed.

Lemma init_exec_explicit d fs clk :
  absolute_dir d →
  is_file (fs !! d) = false →
  is_dir (fs !! dotfile (attributes d)) = false →
  (fs !! d = None → existsb (λ a, is_file (fs !! a)) (ancestors d) = false) →
  ¬ foreign fs d →
  exec (__init__ no_fault d) (World fs clk)
  = (Return (attributes d), World (claimed d fs) clk).
Proof.
  intros Hd Hnf Hmk Hanc Hforeign. set (mk := dotfile (attributes d)) in *.
  assert (mk ≠ d) as Hne by (by apply join_ne_dir).
  unfold __init__, claimed. cbn zeta. fold mk. cbn [attributes dirname].
  rewrite exec_bind. rewrite (exec_bind (path_exists no_fault d)).
  rewrite exec_path_exists. cbn beta iota. cbn [w_fs].
  destruct (fs !! d) as [[s|m]|] eqn:Edir; [done | |]; cbn [is_present negb].
  - rewrite exec_bind, exec_path_exists. cbn beta iota. cbn [w_fs].
    assert (exec (chmod no_fault d 448 >> open_a no_fault mk >>
                  utime no_fault mk >> ret (attributes d)) (World fs clk)
            = (Return (attributes d),
               World (match fs !! mk with
                      | Some _ => <[d := Dir 448]> fs
                      | None => <[mk := File ""]> (<[d := Dir 448]> fs)
                      end) clk)) as Hclaim
      by (by apply (exec_claim_explicit d fs clk m)).
    destruct (fs !! mk) as [[s|?]|] eqn:Emk; [| done |]; cbn [is_present negb].
    + rewrite exec_ret. cbn beta iota. exact Hclaim.
    + rewrite exec_bind, (exec_all_setting_files d fs clk m) by done. cbn beta iota.
      case_bool_decide as Hlen.
      * exfalso. apply Hforeign. split; [by rewrite Edir|]. split; [done|].
        by apply setting_files_nonempty.
      * rewrite exec_ret. cbn beta iota. exact Hclaim.
  - unfold makedirs. rewrite exec_call by done. cbn [w_fs w_clock].
    rewrite Edir, Hanc by done. cbn [is_present]. cbn beta iota.
    set (fs1 := foldr (mkdir_missing 448) fs (ancestors d)).
    assert (fs1 !! mk = fs !! mk) as Hmk1.
    { unfold fs1. rewrite lookup_mkdir_missing. destruct (fs !! mk); [done|].
      rewrite bool_decide_eq_false_2; [done | by apply dotfile_not_ancestor]. }
    rewrite (exec_claim_explicit d (<[d := Dir 448]> fs1) clk 448 Hd).
    + fold mk. rewrite lookup_insert_ne, Hmk1, insert_insert_eq by done. reflexivity.
    + apply lookup_insert_eq.
    + fold mk. by rewrite lookup_insert_ne, Hmk1.
Qed.

Lemma claimed_facts d fs :
  absolute_dir d →
  claimed d fs !! d = Some (Dir 448)
  ∧ claimed d fs !! dotfile (attributes d)
    = Some (match fs !! dotfile (attributes d) with
            | Some x => x
            | None => File ""
            end).
Proof.
  intros Hd. assert (dotfile (attributes d) ≠ d) as Hne by (by apply join_ne_dir).
  unfold claimed. cbn zeta.
  destruct (fs !! dotfile (attributes d)) as [x|] eqn:E.
  - rewrite lookup_insert_eq. split; [done|]. rewrite lookup_insert_ne by done.
    destruct (is_present (fs !! d)); [done|].
    rewrite lookup_mkdir_missing. by rewrite E.
  - rewrite lookup_insert_ne, !lookup_insert_eq by done. done.
Qed.

(** X17.  An [__init__] that succeeds leaves the directory with mode 0700 and the
    marker in place, with the content it had if it was there before; a second
    [__init__] then succeeds and changes nothing. *)
Theorem init_twice (d : string) (w : world) :
  absolute_dir d →
  is_file (w_fs w !! d) = false →
  is_file (w_fs w !! dotfile (attributes d)) = true
  ∨ w_fs w !! dotfile (attributes d) = None →
  (w_fs w !! d = None →
   existsb (λ a, is_file (w_fs w !! a)) (ancestors d) = false) →
  ¬ foreign (w_fs w) d →
  ∃ w', exec (__init__ no_fault d) w = (Return (attributes d), w')
        ∧ w_fs w' !! d = Some (Dir 448)
        ∧ w_fs w' !! dotfile (attributes d)
          = Some (match w_fs w !! dotfile (attributes d) with
                  | Some x => x
                  | None => File ""
                  end)
        ∧ exec (__init__ no_fault d) w' = (Return (attributes d), w').
Proof.
  intros Hd Hnf Hmk Hanc Hforeign. destruct w as [fs clk]. cbn [w_fs] in *.
  assert (is_dir (fs !! dotfile (attributes d)) = false) as Hmk'.
  { destruct Hmk as [H| ->]; [|done]. by destruct (fs !! dotfile _) as [[?|?]|]. }
  destruct (claimed_facts d fs Hd) as [Hcd Hcm].
  exists (World (claimed d fs) clk). split; [by apply init_exec_explicit|].
  split; [exact Hcd|]. split; [exact Hcm|].
  assert (is_file (claimed d fs !! dotfile (attributes d)) = true) as Hfile.
  { rewrite Hcm. destruct Hmk as [H| ->]; [|done].
    by destruct (fs !! dotfile _) as [[?|?]|]. }
  rewrite init_exec_explicit; try done.
  - f_equal. f_equal. unfold claimed at 1. cbn zeta. rewrite Hcd. cbn [is_present].
    destruct (claimed d fs !! dotfile (attributes d)) eqn:E; [|done].
    by apply insert_id.
  - by rewrite Hcd.
  - by destruct (claimed d fs !! dotfile (attributes d)) as [[?|?]|].
  - by rewrite Hcd.
  - intros (_ & H & _). by rewrite H in Hfile.
Qed.

Lemma init_twice_witness :
  let d := "/srv/will" in
  let w := World {[ "/srv" := Dir 493 ]} 0 in
  ∃ w', exec (__init__ no_fault d) w = (Return (attributes d), w')
        ∧ w_fs w' !! d = Some (Dir 448)
        ∧ exec (__init__ no_fault d) w' = (Return (attributes d), w').
Proof.
  intros d w.
  destruct (init_twice d w) as (w' & H1 & H2 & _ & H3).
  - split; [reflexivity | right; reflexivity].
  - vm_compute; reflexivity.
  - right. vm_compute; reflexivity.
  - intros _. vm_compute; reflexivity.
  - intros (H & _). vm_compute in H. discriminate H.
  - exists w'. split; [exact H1|]. split; [exact H2 | exact H3].
Defined.

(** ** Failures of the environment in the other operations *)

Section propagation_loops.
Context (fault : syscall → option errno).
Context (own : exn → Prop).

Lemma propagates_filter_M {A} (test : A → M bool) l w :
  (∀ x w', propagates own (test x w')) → propagates own (filter_M test l w).
Proof.
  intros Ht. revert w. induction l as [|x l IH]; intros w; [apply propagates_ret|].
  cbn [filter_M]. apply propagates_bind; [apply Ht|]. intros keep w1.
  apply propagates_bind; [apply IH|]. intros rest w2. apply propagates_ret.
Qed.

Lemma propagates_map_M {A B} (f : A → M B) l w :
  (∀ x w', propagates own (f x w')) → propagates own (map_M f l w).
Proof.
  intros Hf. revert w. induction l as [|x l IH]; intros w; [apply propagates_ret|].
  cbn [map_M]. apply propagates_bind; [apply Hf|]. intros y w1.
  apply propagates_bind; [apply IH|]. intros rest w2. apply propagates_ret.
Qed.

Lemma propagates_for_each {A} (body : A → M unit) l w :
  (∀ x w', propagates own (body x w')) → propagates own (for_each body l w).
Proof.
  intros Hb. revert w. induction l as [|x l IH]; intros w; [apply propagates_ret|].
  cbn [for_each]. apply propagates_bind; [apply Hb|]. intros _ w1. apply IH.
Qed.

Lemma propagates_all_setting_files self w :
  propagates own (_all_setting_files fault self w).
Proof.
  unfold _all_setting_files, listdir.
  apply propagates_bind; [by apply propagates_call|]. intros names w1.
  apply propagates_bind; [|intros; apply propagates_ret].
  apply propagates_filter_M. intros f w2. apply propagates_probe.
Qed.
End propagation_loops.

(** X18.  For every environment, in [__init__], [_all_setting_files],
    [clear_all_keys] and [size]: a failed call of a raising kind ends the
    operation in the [OSError] or [IOError] of that call, and the operation
    ends in no other exception, but for the [FileStorageException] of
    [__init__]. *)
Theorem store_failures_propagate (fault : syscall → option errno)
    (fmt : Z → string) (d : string) (w : world) :
  propagates (λ x, x = FileStorageException (not_empty_message d))
    (__init__ fault d w)
  ∧ propagates (λ _, False) (_all_setting_files fault (attributes d) w)
  ∧ propagates (λ _, False) (clear_all_keys fault (attributes d) w)
  ∧ propagates (λ _, False) (size fault fmt (attributes d) w)
  ∧ (∀ x, outcome_of (__init__ fault d w) = Raise x →
          x = FileStorageException (not_empty_message d) ∨ is_io_error x)
  ∧ (∀ x, outcome_of (clear_all_keys fault (attributes d) w) = Raise x →
          is_io_error x)
  ∧ (∀ x, outcome_of (size fault fmt (attributes d) w) = Raise x → is_io_error x).
Proof.
  assert (propagates (λ x, x = FileStorageException (not_empty_message d))
            (__init__ fault d w)) as Hinit.
  { unfold __init__. cbn zeta. cbn [attributes dirname dotfile].
    apply propagates_bind.
    - apply propagates_bind; [apply propagates_probe|]. intros [|] w1; cbn [negb].
      + apply propagates_bind; [apply propagates_probe|]. intros [|] w2; cbn [negb];
          [apply propagates_ret|].
        apply propagates_bind; [apply propagates_all_setting_files|]. intros files w3.
        destruct (bool_decide _); [by apply propagates_raise | apply propagates_ret].
      + unfold makedirs. by apply propagates_call.
    - intros _ w1. unfold chmod, open_a, utime.
      apply propagates_bind; [by apply propagates_call|]. intros _ w2.
      apply propagates_bind; [by apply propagates_call|]. intros _ w3.
      apply propagates_bind; [by apply propagates_call|]. intros; apply propagates_ret. }
  assert (propagates (λ _, False) (clear_all_keys fault (attributes d) w)) as Hclear.
  { unfold clear_all_keys.
    apply propagates_bind; [apply propagates_all_setting_files|]. intros files w1.
    apply propagates_for_each. intros p w2. unfold unlink. by apply propagates_call. }
  assert (propagates (λ _, False) (size fault fmt (attributes d) w)) as Hsize.
  { unfold size.
    apply propagates_bind; [apply propagates_all_setting_files|]. intros files w1.
    apply propagates_bind; [|intros; apply propagates_ret].
    apply propagates_map_M. intros p w2. unfold getsize. by apply propagates_call. }
  split; [exact Hinit|]. split; [apply propagates_all_setting_files|].
  split; [exact Hclear|]. split; [exact Hsize|]. split; [|split].
  - intros x Hx. by apply (propagates_io_error _ _ x Hinit Hx).
  - intros x Hx. by destruct (propagates_io_error _ _ x Hclear Hx).
  - intros x Hx. by destruct (propagates_io_error _ _ x Hsize Hx).
Qed.

(** ** When [os.stat] fails *)

Lemma exec_path_exists_fault fault p w :
  is_Some (fault (SysStat p)) → exec (path_exists fault p) w = (Return false, w).
Proof. intros [e He]. unfold exec, path_exists, probe. by rewrite He. Qed.

(** X19.  In an environment where every [os.stat] fails, whatever files exist:
    [load] answers that there is no value and [clear] deletes nothing, both
    without an error; and a [save] without expiration over an existing value
    file, whose open and write succeed, replaces the value and leaves an
    expiry file of the key where it is. *)
Theorem stat_failures_are_silent (fault : syscall → option errno)
    (d k v : string) (w : world) :
  absolute_dir d → valid_key k →
  (∀ p, is_Some (fault (SysStat p))) →
  exec (load fault (attributes d) k) w = (Return None, w)
  ∧ exec (clear fault (attributes d) k) w = (Return tt, w)
  ∧ (is_file (w_fs w !! key_path (attributes d) k) = true →
     fault (SysOpen (key_path (attributes d) k) Mode_w) = None →
     fault (SysWrite (key_path (attributes d) k)) = None →
     exec (save fault (attributes d) k v None) w
     = (Return tt,
        World (<[key_path (attributes d) k := File v]> (w_fs w)) (w_clock w))).
Proof.
  intros _ _ Hstat. split; [|split].
  - unfold load.
    change (_key_paths (attributes d) k)
      with (key_path (attributes d) k, expire_path (attributes d) k). cbn iota.
    rewrite exec_bind, exec_path_exists_fault by done. cbn beta iota.
    rewrite exec_bind, exec_ret. cbn beta iota.
    rewrite exec_bind, exec_path_exists_fault by done. cbn beta iota.
    by rewrite exec_ret.
  - unfold clear.
    change (_key_paths (attributes d) k)
      with (key_path (attributes d) k, expire_path (attributes d) k). cbn iota.
    rewrite !exec_bind, exec_path_exists_fault by done. cbn beta iota.
    rewrite exec_ret. cbn beta iota.
    rewrite exec_bind, exec_path_exists_fault by done. by rewrite exec_ret.
  - intros Hf Hopen Hwrite. destruct w as [fs clk]. cbn [w_fs w_clock] in *.
    unfold save.
    change (_key_paths (attributes d) k)
      with (key_path (attributes d) k, expire_path (attributes d) k). cbn iota.
    unfold open_w at 1. unfold f_write at 1.
    rewrite exec_bind, exec_call by done. cbn [w_fs w_clock].
    destruct (fs !! key_path (attributes d) k) as [[old|?]|] eqn:E; try done.
    cbn beta iota. rewrite exec_bind, exec_call by done. cbn [w_fs w_clock].
    rewrite lookup_insert_eq. cbn beta iota.
    rewrite exec_bind, exec_path_exists_fault by done. cbn beta iota.
    by rewrite exec_ret, insert_insert_eq.
Qed.

Lemma stat_failures_are_silent_witness :
  let d := "/srv/will" in
  let w := World {[ "/srv/will" := Dir 448; "/srv/will/token" := File "abc";
                    "/srv/will/.token.expires" := File "100" ]} 0 in
  exec (load stat_denied (attributes d) "token") w = (Return None, w)
  ∧ exec (clear stat_denied (attributes d) "token") w = (Return tt, w)
  ∧ exec (save stat_denied (attributes d) "token" "new" None) w
    = (Return tt,
       World (<[key_path (attributes d) "token" := File "new"]> (w_fs w)) (w_clock w)).
Proof.
  intros d w.
  destruct (stat_failures_are_silent stat_denied d "token" "new" w) as (H1 & H2 & H3).
  - split; [reflexivity | right; reflexivity].
  - repeat split; done.
  - intros p. by exists EACCES.
  - split; [exact H1|]. split; [exact H2|]. apply H3.
    + vm_compute; reflexivity.
    + reflexivity.
    + reflexivity.
Defined.

(** ** Clearing twice *)

(** X20.  A second [clear] of a key, or of a key that was never saved, changes
    nothing: [clear] followed by [clear] leaves the world one [clear]
    leaves, and a [load] after it answers that there is no value. *)
Theorem clear_is_idempotent (d k : string) (w : world) :
  absolute_dir d → valid_key k →
  is_dir (w_fs w !! key_path (attributes d) k) = false →
  is_dir (w_fs w !! expire_path (attributes d) k) = false →
  exec (clear no_fault (attributes d) k >> clear no_fault (attributes d) k) w
  = exec (clear no_fault (attributes d) k) w
  ∧ exec (clear no_fault (attributes d) k >> load no_fault (attributes d) k) w
    = (Return None, cleared (attributes d) k w).
Proof.
  intros Hd Hk Hkp Hep. destruct w as [fs clk]. cbn [w_fs] in *.
  pose proof (key_path_ne_expire_path d Hd k Hk) as Hne.
  rewrite !exec_bind, (clear_exec d Hd k Hk fs clk Hkp Hep). cbn beta iota.
  unfold cleared. cbn [w_fs w_clock]. split.
  - rewrite (clear_exec d Hd k Hk).
    + f_equal. f_equal. map_lookups.
    + by rewrite lookup_delete_ne, lookup_delete_eq.
    + by rewrite lookup_delete_eq.
  - rewrite load_exec_no_expiry by apply lookup_delete_eq.
    by rewrite lookup_delete_ne, lookup_delete_eq.
Qed.

Lemma clear_is_idempotent_witness :
  let d := "/srv/will" in
  let w := World {[ "/srv/will" := Dir 448; "/srv/will/token" := File "abc" ]} 0 in
  exec (clear no_fault (attributes d) "token" >> load no_fault (attributes d) "token") w
  = (Return None, cleared (attributes d) "token" w).
Proof.
  intros d w. refine (proj2 (clear_is_idempotent d "token" w _ _ _ _)).
  - split; [reflexivity | right; reflexivity].
  - repeat split; done.
  - vm_compute; reflexivity.
  - vm_compute; reflexivity.
Defined.

(** ** The expiry files, in an environment whose calls may fail *)

Section returns.
Context (fault : syscall → option errno).
Context (Hstat : ∀ p, fault (SysStat p) = None).

Lemma returns_ret {A} (a : A) : returns_as (ret a) (ret a).
Proof. by intros w b w'. Qed.

Lemma returns_raise {A} x : returns_as (raise (A:=A) x) (raise x).
Proof. by intros w b w'. Qed.

Lemma returns_time : returns_as time_time time_time.
Proof. by intros w b w'. Qed.

Lemma returns_probe p test :
  returns_as (probe fault p test) (probe no_fault p test).
Proof. intros w a w'. by rewrite !exec_probe. Qed.

Lemma returns_call {A} sc ex
    (sem : gmap string node → errno + A * gmap string node) :
  returns_as (call fault sc ex sem) (call no_fault sc ex sem).
Proof.
  intros w a w'. destruct (fault sc) as [e|] eqn:E.
  - by rewrite (exec_call_fault fault sc ex sem w e E).
  - by rewrite !exec_call.
Qed.

Lemma returns_bind {A B} (m m0 : M A) (k k0 : A → M B) :
  returns_as m m0 → (∀ a, returns_as (k a) (k0 a)) →
  returns_as (bind m k) (bind m0 k0).
Proof.
  intros Hm Hk w b w'. rewrite !exec_bind.
  destruct (exec m w) as [[a|x] w1] eqn:E; [|done].
  rewrite (Hm _ _ _ E). apply Hk.
Qed.

Lemma returns_filter_M {A} (test test0 : A → M bool) l :
  (∀ x, returns_as (test x) (test0 x)) →
  returns_as (filter_M test l) (filter_M test0 l).
Proof.
  intros H. induction l as [|x l IH]; [apply returns_ret|]. cbn [filter_M].
  apply returns_bind; [apply H|]. intros keep.
  apply returns_bind; [apply IH|]. intros rest. apply returns_ret.
Qed.

Lemma returns_for_each {A} (body body0 : A → M unit) l :
  (∀ x, returns_as (body x) (body0 x)) →
  returns_as (for_each body l) (for_each body0 l).
Proof.
  intros H. induction l as [|x l IH]; [apply returns_ret|]. cbn [for_each].
  apply returns_bind; [apply H|]. intros _. apply IH.
Qed.

Lemma returns_unlink_if_exists p :
  returns_as (let! found := path_exists fault p in
              if found then unlink fault p else ret tt)
             (let! found := path_exists no_fault p in
              if found then unlink no_fault p else ret tt).
Proof.
  apply returns_bind; [apply returns_probe|]. intros [|];
    [apply returns_call | apply returns_ret].
Qed.

Lemma clear_returns self k :
  returns_as (clear fault self k) (clear no_fault self k).
Proof.
  unfold clear. change (_key_paths self k) with (key_path self k, expire_path self k).
  cbn iota. apply returns_bind; [apply returns_unlink_if_exists|]. intros _.
  apply returns_unlink_if_exists.
Qed.

Lemma save_returns self k v e :
  returns_as (save fault self k v e) (save no_fault self k v e).
Proof.
  unfold save. change (_key_paths self k) with (key_path self k, expire_path self k).
  cbn iota. apply returns_bind; [apply returns_call|]. intros _.
  apply returns_bind; [apply returns_call|]. intros _.
  destruct e as [x|].
  - apply returns_bind; [apply returns_call|]. intros _. apply returns_call.
  - apply returns_unlink_if_exists.
Qed.

Lemma load_returns self k :
  returns_as (load fault self k) (load no_fault self k).
Proof.
  unfold load. change (_key_paths self k) with (key_path self k, expire_path self k).
  cbn iota. apply returns_bind; [apply returns_probe|]. intros has_expiry.
  apply returns_bind.
  - destruct has_expiry; [|apply returns_ret].
    apply returns_bind; [apply returns_call|]. intros _.
    apply returns_bind; [apply returns_call|]. intros expire_at.
    apply returns_bind; [apply returns_time|]. intros now.
    destruct (py_int expire_at); [apply returns_ret | apply returns_raise].
  - intros [|].
    + apply returns_bind; [apply clear_returns|]. intros _. apply returns_ret.
    + apply returns_bind; [apply returns_probe|]. intros [|]; [|apply returns_ret].
      apply returns_bind; [apply returns_call|]. intros _.
      apply returns_bind; [apply returns_call|]. intros value. apply returns_ret.
Qed.

Lemma all_setting_files_returns self :
  returns_as (_all_setting_files fault self) (_all_setting_files no_fault self).
Proof.
  unfold _all_setting_files.
  apply returns_bind; [apply returns_call|]. intros names.
  apply returns_bind; [|intros kept; apply returns_ret].
  apply returns_filter_M. intros f. apply returns_probe.
Qed.

Lemma clear_all_keys_returns self :
  returns_as (clear_all_keys fault self) (clear_all_keys no_fault self).
Proof.
  unfold clear_all_keys.
  apply returns_bind; [apply all_setting_files_returns|]. intros files.
  apply returns_for_each. intros p. apply returns_call.
Qed.
End returns.

Lemma touches_nothing {A} (m : M A) w :
  touches_only (λ _, False) m → (exec m w).2 = w.
Proof.
  intros H. destruct (H w) as [Hc Hf]. unfold exec. cbn [snd].
  destruct (final (m w)) as [fs' clk']. destruct w as [fs clk].
  cbn [w_fs w_clock] in *. subst clk'. f_equal.
  apply map_eq. intros p. apply Hf. by intros [].
Qed.

Lemma size_touches fault fmt self : touches_only (λ _, False) (size fault fmt self).
Proof.
  unfold size. apply touches_bind; [apply touches_all_setting_files|]. intros files.
  apply touches_bind; [|intros; apply touches_ret].
  apply touches_map_M. intros q. apply touches_getsize.
Qed.

Lemma init_touches fault d :
  touches_only (λ q, q = d ∨ q ∈ ancestors d ∨ q = dotfile (attributes d))
    (__init__ fault d).
Proof.
  unfold __init__. cbn zeta. cbn [attributes dirname dotfile].
  apply touches_bind.
  - apply touches_bind; [apply touches_probe|]. intros [|]; cbn [negb].
    + apply touches_bind; [apply touches_probe|]. intros [|]; cbn [negb];
        [apply touches_ret|].
      apply touches_bind; [apply touches_all_setting_files|]. intros files.
      destruct (bool_decide _); [apply touches_raise | apply touches_ret].
    + apply touches_makedirs; [by left|]. intros a Ha. right. by left.
  - intros _. apply touches_bind; [apply touches_chmod; by left|]. intros _.
    apply touches_bind; [apply touches_open_a; by right; right|]. intros _.
    apply touches_bind; [apply touches_utime | intros; apply touches_ret].
Qed.

Lemma expire_path_not_ancestor d k :
  absolute_dir d → valid_key k → expire_path (attributes d) k ∉ ancestors d.
Proof.
  intros Hd Hk Ha. apply prefixes_length in Ha.
  unfold expire_path, _key_paths in Ha. cbn [snd attributes dirname] in Ha.
  pose proof (join_length d ("." +:+ k +:+ ".expires") Hd
                (expiry_name_no_slash k (valid_key_no_slash k Hk))) as H.
  assert (0 < String.length ("." +:+ k +:+ ".expires"))%nat
    by (rewrite app_cons; cbn [String.length]; lia).
  cbn [String.length] in Ha. lia.
Qed.

Lemma expire_path_ne_dir d k :
  absolute_dir d → valid_key k → expire_path (attributes d) k ≠ d.
Proof.
  intros Hd Hk. unfold expire_path, _key_paths. cbn [snd attributes dirname].
  apply join_ne_dir; [done | by apply expiry_name_no_slash, valid_key_no_slash | done].
Qed.

(** [__init__] leaves the expiry file of every valid key as it is, however it
    ends and whichever calls fail. *)
Lemma init_keeps_expiry_files fault d (m : gmap string entry) w :
  absolute_dir d →
  expiry_inv (attributes d) m w →
  expiry_inv (attributes d) m (exec (__init__ fault d) w).2.
Proof.
  intros Hd Hinv k Hk e. unfold exec. cbn [snd].
  rewrite (touches_only_elim _ _ w (expire_path (attributes d) k) (init_touches fault d)).
  - by apply Hinv.
  - intros [H|[H|H]].
    + by apply expire_path_ne_dir in H.
    + by apply expire_path_not_ancestor in H.
    + symmetry in H. by apply dotfile_not_expire_path in H.
Qed.

(** C5, as the code has it.  Let the expiry file of every valid key exist
    exactly when the key has an expiration, and hold its text.  In an
    environment whose [os.stat] does not fail, whichever other calls do, that
    still holds after every operation that returns, when the key operated on
    is valid and is not itself the name of an expiry file ([.x.expires]):
    [save], [load], [clear], [clear_all_keys], [size] (which leaves the world
    as it is) and [__init__].  In particular after [save(k, v)] without
    expiration there is no expiry file for [k], the entry has no expiration,
    and [load(k)] returns [v] at every later time: it does so when no call
    fails, and in every such environment it returns nothing else. *)
Theorem expiry_invariant_preserved (fault : syscall → option errno)
    (d k : string) (m : gmap string entry) (w : world) :
  (∀ p, fault (SysStat p) = None) →
  absolute_dir d → valid_key k → is_expiry_name k = false →
  expiry_inv (attributes d) m w →
  expiry_file_iff (attributes d) m w
  ∧ (∀ v e w', exec (save fault (attributes d) k v e) w = (Return tt, w') →
       expiry_inv (attributes d) (entry_save k v e m) w'
       ∧ expiry_file_iff (attributes d) (entry_save k v e m) w')
  ∧ (∀ r w', exec (load fault (attributes d) k) w = (Return r, w') →
       expiry_inv (attributes d) (entry_load (w_clock w) k m) w'
       ∧ expiry_file_iff (attributes d) (entry_load (w_clock w) k m) w')
  ∧ (∀ w', exec (clear fault (attributes d) k) w = (Return tt, w') →
       expiry_inv (attributes d) (entry_clear k m) w'
       ∧ expiry_file_iff (attributes d) (entry_clear k m) w')
  ∧ (∀ w', exec (clear_all_keys fault (attributes d)) w = (Return tt, w') →
       expiry_inv (attributes d) (entry_clear_all m) w'
       ∧ expiry_file_iff (attributes d) (entry_clear_all m) w')
  ∧ (∀ fmt, (exec (size fault fmt (attributes d)) w).2 = w)
  ∧ (∀ self w', exec (__init__ fault d) w = (Return self, w') →
       expiry_inv (attributes d) m w' ∧ expiry_file_iff (attributes d) m w')
  ∧ (∀ v w', exec (save fault (attributes d) k v None) w = (Return tt, w') →
       w_fs w' !! expire_path (attributes d) k = None
       ∧ ¬ has_expiration (entry_save k v None m) k
       ∧ (∀ t, exec (load no_fault (attributes d) k) (set_clock t w')
               = (Return (Some v), set_clock t w'))
       ∧ (∀ fault' : syscall → option errno,
            (∀ p, fault' (SysStat p) = None) →
            ∀ t r w'',
              exec (load fault' (attributes d) k) (set_clock t w') = (Return r, w'') →
              r = Some v ∧ w'' = set_clock t w')).
Proof.
  intros Hstat Hd Hk Hn Hinv. destruct w as [fs clk]. cbn [w_fs w_clock].
  assert (∀ m' w', expiry_inv (attributes d) m' w' →
            expiry_inv (attributes d) m' w' ∧ expiry_file_iff (attributes d) m' w')
    as Hboth by (intros m' w' H; split; [done | by apply expiry_inv_exists]).
  split; [by apply expiry_inv_exists|].
  split; [intros v e w' H%(save_returns fault Hstat); by eapply Hboth, save_preserves|].
  split; [intros r w' H%(load_returns fault Hstat); by eapply Hboth, load_preserves|].
  split; [intros w' H%(clear_returns fault Hstat); by eapply Hboth, clear_preserves|].
  split; [intros w' H%(clear_all_keys_returns fault Hstat);
          by eapply Hboth, clear_all_keys_preserves|].
  split; [intros fmt; apply touches_nothing, size_touches|].
  split.
  { intros self w' H. apply Hboth.
    pose proof (init_keeps_expiry_files fault d m (World fs clk) Hd Hinv) as Hi.
    by rewrite H in Hi. }
  intros v w' H%(save_returns fault Hstat). apply save_Return in H. subst w'.
  cbn [w_fs].
  assert (∀ t, exec (load no_fault (attributes d) k)
                 (set_clock t (World (delete (expire_path (attributes d) k)
                                 (<[key_path (attributes d) k := File v]> fs)) clk))
               = (Return (Some v),
                  set_clock t (World (delete (expire_path (attributes d) k)
                                 (<[key_path (attributes d) k := File v]> fs)) clk)))
    as Hload.
  { intros t. unfold set_clock. cbn [w_fs w_clock].
    rewrite load_exec_no_expiry by apply lookup_delete_eq.
    rewrite lookup_delete_ne by (symmetry; by apply key_path_ne_expire_path).
    by rewrite lookup_insert_eq. }
  split; [apply lookup_delete_eq|]. split; [|split; [exact Hload|]].
  - unfold has_expiration, entry_save. rewrite lookup_insert_eq. by intros (? & ? & [=]).
  - intros fault' Hstat' t r w'' H%(load_returns fault' Hstat').
    rewrite Hload in H. by injection H as <- <-.
Qed.

Lemma expiry_invariant_preserved_witness :
  let unreadable : syscall → option errno :=
    λ sc, match sc with SysRead _ => Some EIO | _ => None end in
  let self := attributes "/srv/will" in
  let w := World {[ "/srv/will" := Dir 448 ]} 0 in
  ∃ w', exec (save unreadable self "token" "abc" (Some "100")) w = (Return tt, w')
        ∧ expiry_inv self (entry_save "token" "abc" (Some "100") ∅) w'
        ∧ expiry_file_iff self (entry_save "token" "abc" (Some "100") ∅) w'.
Proof.
  intros unreadable self w. eexists. split; [vm_compute; reflexivity|].
  refine (proj1 (proj2 (expiry_invariant_preserved unreadable "/srv/will" "token" ∅ w
                          _ _ _ _ _))
            "abc" (Some "100") _ _).
  - intros p. reflexivity.
  - split; [reflexivity | right; reflexivity].
  - repeat split; done.
  - reflexivity.
  - apply empty_store_inv. split; [reflexivity | right; reflexivity].
  - vm_compute; reflexivity.
Defined.


(** C5, as the claim has it, fails: a [save] under the key [.token.expires]
    creates the expiry file of the key [token], which has no expiration. *)
Lemma expiry_name_key_breaks_invariant :
  let self := attributes "/srv/will" in
  let w := World {[ "/srv/will" := Dir 448 ]} 0 in
  valid_key ".token.expires"
  ∧ expiry_file_iff self ∅ w
  ∧ ∃ w', exec (save no_fault self ".token.expires" "100" None) w = (Return tt, w')
          ∧ ¬ expiry_file_iff self (entry_save ".token.expires" "100" None ∅) w'.
Proof.
  intros self w. split; [repeat split; done|]. split.
  - apply expiry_inv_exists, empty_store_inv. split; [reflexivity | right; reflexivity].
  - eexists. split; [vm_compute; reflexivity|]. intros H.
    assert (valid_key "token") as Hk by (repeat split; done).
    apply (H "token") in Hk. destruct Hk as [Hk _].
    destruct Hk as (v & e & Hm); [vm_compute; reflexivity|].
    vm_compute in Hm. discriminate Hm.
Qed.

(** The condition on [os.stat] is needed.  Where every [os.stat] is refused,
    a [save] without expiration returns and leaves the expiry file of its
    key, which then has no expiration. *)
Lemma stat_failure_breaks_invariant :
  let self := attributes "/srv/will" in
  let m : gmap string entry := {[ "token" := ("old", Some "100") ]} in
  let w := World {[ "/srv/will" := Dir 448;
                    "/srv/will/token" := File "old";
                    "/srv/will/.token.expires" := File "100" ]} 0 in
  expiry_inv self m w
  ∧ ∃ w', exec (save stat_denied self "token" "new" None) w = (Return tt, w')
          ∧ ¬ expiry_file_iff self (entry_save "token" "new" None m) w'.
Proof.
  intros self m w.
  assert (absolute_dir "/srv/will") as Hd by (split; [reflexivity | right; reflexivity]).
  assert (valid_key "token") as Ht by (repeat split; done).
  split.
  - intros k Hk e. destruct (decide (k = "token")) as [->|Hne].
    + vm_compute. split.
      * intros H. injection H as <-. by exists "old".
      * intros [x H]. by injection H as _ <-.
    + unfold m, w, self. rewrite lookup_singleton_ne by done. cbn [w_fs].
      split; [|by intros [? ?]].
      rewrite lookup_insert_ne by (symmetry; by apply expire_path_ne_dir).
      rewrite lookup_insert_ne
        by (apply (key_path_not_expire_path "/srv/will" "token" k); done).
      rewrite lookup_singleton_ne; [done|].
      intros H. apply Hne. symmetry.
      by apply (expire_path_inj "/srv/will" "token" k).
  - eexists. split; [vm_compute; reflexivity|]. intros H.
    apply (H "token") in Ht. destruct Ht as [Ht _].
    destruct Ht as (v & e & Hm); [vm_compute; reflexivity|].
    vm_compute in Hm. discriminate Hm.
Qed.
